(** * EventStore: the log-and-projection engine of terminals-core

    A shallow embedding of [src/core/EventStore.ts] (class [EventStore]) and
    of the types it uses from [src/core/types.ts], followed by the properties
    of append, undo/redo, navigation, checkpointed projection, eviction,
    snapshot/restore, fork and clear.

    Modelling conventions.
    - JavaScript numbers used as positions ([index], checkpoint keys,
      timestamps, navigation targets) are integers [Z]; the two counting
      options [maxEvents] and [checkpointInterval] are naturals [N], where
      [0] is the falsy value that switches the feature off.
    - [Map<number, S>] and [Map<string, any>] are [gmap]s.  The only loops
      over the checkpoint map are a strict-maximum scan and a key filter,
      neither of which depends on the iteration order (see
      [nearestCheckpoint_spec]).
    - A method is a computation [M A := Store -> Store * Result A]: the store
      it leaves behind and either its return value or the fault it threw.
      The store component is the object after the call also when the call
      threw, because the source assigns its fields in place.
    - The reducer is supplied by the caller and may throw: it is a function
      into [option S], [None] standing for a throw.
    - [Date.now()] is an input of the methods that read the clock.
    - Listeners are external callbacks.  The projection that is computed to
      call them is kept (it may throw); the callbacks themselves are assumed
      not to throw and not to re-enter the store, and are not represented. *)

From stdpp Require Import base list gmap strings pretty.
From Stdlib Require Import Ascii.

Open Scope Z_scope.

(** ** JavaScript helpers *)

(** [Array.prototype.slice]: a negative bound counts from the end, every
    bound is clamped to [0 .. length]. *)
Definition relIndex (k len : Z) : Z :=
  if k <? 0 then Z.max (len + k) 0 else Z.min k len.

Definition slice {A} (start stop : Z) (l : list A) : list A :=
  let len := Z.of_nat (length l) in
  let a := relIndex start len in
  let b := relIndex stop len in
  take (Z.to_nat (b - a)) (drop (Z.to_nat a) l).

(** [arr.slice(start)] *)
Definition sliceFrom {A} (start : Z) (l : list A) : list A :=
  slice start (Z.of_nat (length l)) l.

(** Truthiness of an optional number and of an optional boolean. *)
Definition truthyN (o : option N) : bool :=
  match o with Some n => negb (n =? 0)%N | None => false end.

Definition truthyB (o : option bool) : bool :=
  match o with Some b => b | None => false end.

(** The numeric value read from an optional count that is known truthy. *)
Definition numOf (o : option N) : Z :=
  match o with Some n => Z.of_N n | None => 0 end.

(** A string without the character [-]. *)
Fixpoint dashFree (s : string) : Prop :=
  match s with
  | EmptyString => True
  | String c r => c ≠ "-"%char ∧ dashFree r
  end.

(** ** Types ([src/core/types.ts]) *)

(** [EventStoreOptions]; the fields the store itself reads. *)
Record EventStoreOptions := mkOptions {
  maxEvents : option N;
  enableCheckpoints : option bool;
  checkpointInterval : option N
}.

(** [{ maxEvents: 10000, enableCheckpoints: true, checkpointInterval: 100,
      ...options }] *)
Definition withDefaults (o : EventStoreOptions) : EventStoreOptions :=
  {| maxEvents := Some (default 10000%N (maxEvents o));
     enableCheckpoints := Some (default true (enableCheckpoints o));
     checkpointInterval := Some (default 100%N (checkpointInterval o)) |}.

Inductive Fault := ReducerFault | TypeError.

Inductive Result (A : Type) :=
| Ok (a : A)
| Throw (f : Fault).
Arguments Ok {A} a.
Arguments Throw {A} f.

Section Core.
(** [P]: an event without [id] and [timestamp] ([EventPayload<E>]);
    [S]: the projected state; [V]: metadata values. *)
Context {P S V : Type}.

(** [BaseEvent] extended by the application's payload. *)
Record Event := mkEvent {
  ev_id : string;
  ev_timestamp : Z;
  ev_payload : P
}.

(** [Snapshot<E, S>] as it reaches [restore] at run time.  [snap_events]
    is [None] when the field is missing or not iterable, [snap_state] is
    [None] when the field is missing; [metadata] is optional in the
    declaration itself.  A missing [index] would leave the store with a
    cursor that is not a number, which [Store] does not represent: the
    index is always an integer here. *)
Record Snapshot := mkSnapshot {
  snap_events : option (list Event);
  snap_index : Z;
  snap_state : option S;
  snap_timestamp : Z;
  snap_metadata : option (gmap string V)
}.

(** The private fields of [EventStore] (all but [listeners],
    [initialState] and [reducer]). *)
Record Store := mkStore {
  events : list Event;
  index : Z;
  checkpoints : gmap Z S;
  idCounter : N;
  metadata : gmap string V;
  options : EventStoreOptions
}.

Definition set_events (x : list Event) (s : Store) : Store :=
  mkStore x (index s) (checkpoints s) (idCounter s) (metadata s) (options s).
Definition set_index (x : Z) (s : Store) : Store :=
  mkStore (events s) x (checkpoints s) (idCounter s) (metadata s) (options s).
Definition set_checkpoints (x : gmap Z S) (s : Store) : Store :=
  mkStore (events s) (index s) x (idCounter s) (metadata s) (options s).
Definition set_idCounter (x : N) (s : Store) : Store :=
  mkStore (events s) (index s) (checkpoints s) x (metadata s) (options s).
Definition set_metadata (x : gmap string V) (s : Store) : Store :=
  mkStore (events s) (index s) (checkpoints s) (idCounter s) x (options s).

(** [this.events.length] *)
Definition len (s : Store) : Z := Z.of_nat (length (events s)).

Definition checkpointsOn (s : Store) : bool :=
  truthyB (enableCheckpoints (options s)).

(** ** Methods as store computations *)

Definition M (A : Type) : Type := Store → Store * Result A.

#[global] Instance M_ret : MRet M := λ A a s, (s, Ok a).
#[global] Instance M_bind : MBind M := λ A B f m s,
  match m s with
  | (s', Ok a) => f a s'
  | (s', Throw e) => (s', Throw e)
  end.

Definition get : M Store := λ s, (s, Ok s).
Definition modify (f : Store → Store) : M unit := λ s, (f s, Ok tt).
Definition throw {A} (e : Fault) : M A := λ s, (s, Throw e).
Definition when (b : bool) (m : M unit) : M unit :=
  if b then m else mret tt.

(** The constructor arguments that become private fields. *)
Variable initialState : S.
Variable reducer : S → Event → option S.

(** [arr.reduce(this.reducer, acc)] *)
Fixpoint reduce (l : list Event) (acc : S) : option S :=
  match l with
  | [] => Some acc
  | e :: r =>
      match reducer acc e with
      | Some acc' => reduce r acc'
      | None => None
      end
  end.

(** [constructor]: the initial checkpoint is decided on the options as
    passed, before the defaults are merged in. *)
Definition new (o : EventStoreOptions) : Store :=
  {| events := [];
     index := -1;
     checkpoints :=
       if truthyB (enableCheckpoints o) then {[ -1 := initialState ]} else ∅;
     idCounter := 0%N;
     metadata := ∅;
     options := withDefaults o |}.

(** One turn of the loop of [projectAtIndex] over the checkpoint entries. *)
Definition nearestStep (target k : Z) (st : S) (acc : Z * S) : Z * S :=
  if (k <=? target) && (acc.1 <? k) then (k, st) else acc.

Definition nearestCheckpoint (target : Z) (cps : gmap Z S) : Z * S :=
  map_fold (nearestStep target) (-1, initialState) cps.

(** [projectAtIndex]: it reads the store and writes nothing. *)
Definition projectAtIndex (targetIndex : Z) (s : Store) : option S :=
  if targetIndex <? 0 then Some initialState
  else if checkpointsOn s then
    let '(nearest, nearestState) :=
      nearestCheckpoint targetIndex (checkpoints s) in
    let startIndex := nearest + 1 in
    reduce (slice startIndex (targetIndex + 1) (events s)) nearestState
  else
    reduce (slice 0 (targetIndex + 1) (events s)) initialState.

Definition projectAtIndexM (targetIndex : Z) : M S := λ s,
  match projectAtIndex targetIndex s with
  | Some st => (s, Ok st)
  | None => (s, Throw ReducerFault)
  end.

(** [project] *)
Definition project : M S :=
  s ← get; projectAtIndexM (index s).

(** The truncation branch of [append]. *)
Definition truncateFuture (s : Store) : Store :=
  set_checkpoints (filter (λ kv, kv.1 ≤ index s) (checkpoints s))
    (set_events (slice 0 (index s + 1) (events s)) s).

(** The event built by [append] from the payload, the two readings of the
    clock and the counter. *)
Definition makeEvent (ep : P) (now_id now_ts : Z) (counter : N) : Event :=
  {| ev_id := "evt-" +:+ pretty now_id +:+ "-" +:+ pretty counter;
     ev_timestamp := now_ts;
     ev_payload := ep |}.

(** Does the eviction branch of [append] run in this store? *)
Definition overflows (s : Store) : bool :=
  truthyN (maxEvents (options s)) && (numOf (maxEvents (options s)) <=? len s).

(** The eviction branch of [append]. *)
Definition evict : M unit :=
  s ← get;
  let midpoint := len s / 2 in
  when (checkpointsOn s)
    (checkpointState ← projectAtIndexM midpoint;
     modify (set_checkpoints {[ 0 := checkpointState ]})) ;;
  modify (λ s, set_events (sliceFrom midpoint (events s)) s) ;;
  modify (λ s, set_index (len s - 1) s).

(** Is the new position a multiple of the checkpoint interval? *)
Definition intervalReached (s : Store) : bool :=
  checkpointsOn s && truthyN (checkpointInterval (options s))
  && (Z.rem (index s) (numOf (checkpointInterval (options s))) =? 0).

(** [append] *)
Definition append (ep : P) (now_id now_ts : Z) : M Event :=
  s ← get;
  when (index s <? len s - 1) (modify truncateFuture) ;;
  s ← get;
  let event := makeEvent ep now_id now_ts (idCounter s) in
  modify (set_idCounter (idCounter s + 1)%N) ;;
  s ← get;
  when (overflows s) evict ;;
  modify (λ s, set_events (events s ++ [event]) s) ;;
  modify (λ s, set_index (index s + 1) s) ;;
  s ← get;
  when (intervalReached s)
    (st ← project;
     modify (λ s, set_checkpoints (<[index s := st]> (checkpoints s)) s)) ;;
  newState ← project;
  mret event.

(** [undo] *)
Definition undo : M bool :=
  s ← get;
  if 0 <=? index s then
    modify (set_index (index s - 1)) ;;
    newState ← project;
    mret true
  else mret false.

(** [redo] *)
Definition redo : M bool :=
  s ← get;
  if index s <? len s - 1 then
    modify (set_index (index s + 1)) ;;
    newState ← project;
    mret true
  else mret false.

(** [navigate] *)
Definition navigate (i : Z) : M unit :=
  s ← get;
  let oldIndex := index s in
  modify (set_index (Z.max (-1) (Z.min i (len s - 1)))) ;;
  s ← get;
  when (negb (oldIndex =? index s)) (newState ← project; mret tt).

(** The loop of [navigateToTime]: [i] is the loop counter, [evs] the
    events from position [i] on, [targetIndex] the variable it assigns. *)
Fixpoint scanTime (t : Z) (evs : list Event) (i targetIndex : Z) : Z :=
  match evs with
  | [] => targetIndex
  | e :: rest =>
      if ev_timestamp e <=? t then scanTime t rest (i + 1) i
      else targetIndex
  end.

(** [navigateToTime] *)
Definition navigateToTime (t : Z) : M unit :=
  s ← get;
  navigate (scanTime t (events s) 0 (-1)).

Definition getIndex (s : Store) : Z := index s.
Definition getEvents (s : Store) : list Event := events s.
Definition getActiveEvents (s : Store) : list Event :=
  slice 0 (index s + 1) (events s).
Definition getEventsInRange (start stop : Z) (s : Store) : list Event :=
  filter (λ e, start ≤ ev_timestamp e ∧ ev_timestamp e ≤ stop) (events s).
Definition canUndo (s : Store) : bool := 0 <=? index s.
Definition canRedo (s : Store) : bool := index s <? len s - 1.
Definition setMetadata (k : string) (v : V) : M unit :=
  modify (λ s, set_metadata (<[k := v]> (metadata s)) s).
Definition getMetadata (k : string) (s : Store) : option V := metadata s !! k.

(** [snapshot] *)
Definition snapshot (now : Z) : M Snapshot :=
  s ← get;
  st ← project;
  mret {| snap_events := Some (events s);
          snap_index := index s;
          snap_state := Some st;
          snap_timestamp := now;
          snap_metadata := Some (metadata s) |}.

(** The loop [for (let i = ...; i <= this.index; i += interval)] shared by
    [restore] and [fork], entered with the current value of [i].  [fuel]
    bounds the number of turns; [rebuildFrom_fuel] shows that the bound
    used by the callers is never reached while the loop condition holds. *)
Fixpoint rebuildFrom (fuel : nat) (interval i : Z) : M unit :=
  match fuel with
  | O => mret tt
  | Datatypes.S fuel' =>
      s ← get;
      if i <=? index s then
        st ← projectAtIndexM i;
        modify (λ s, set_checkpoints (<[i := st]> (checkpoints s)) s) ;;
        rebuildFrom fuel' interval (i + interval)
      else mret tt
  end.

Definition rebuildCheckpoints : M unit :=
  s ← get;
  let interval := numOf (checkpointInterval (options s)) in
  rebuildFrom (Z.to_nat (index s + 1)) interval (interval - 1).

(** [restore] *)
Definition restore (snapshot : Snapshot) : M unit :=
  match snap_events snapshot with
  | None => throw TypeError
  | Some evs =>
      modify (set_events evs) ;;
      modify (set_index (snap_index snapshot)) ;;
      modify (set_metadata (default ∅ (snap_metadata snapshot))) ;;
      modify (set_checkpoints ∅) ;;
      s ← get;
      when (checkpointsOn s)
        (modify (λ s, set_checkpoints (<[-1 := initialState]> (checkpoints s)) s) ;;
         s ← get;
         when (truthyN (checkpointInterval (options s))) rebuildCheckpoints)
  end.

(** [fork]: the new store, or the fault thrown while rebuilding its
    checkpoints.  The receiver is only read. *)
Definition fork (s : Store) : Result Store :=
  let forked := new (options s) in
  let forked := set_events (getActiveEvents s) forked in
  let forked := set_index (len forked - 1) forked in
  let forked := set_metadata (metadata s) forked in
  if checkpointsOn s && truthyN (checkpointInterval (options s)) then
    match (modify (λ f, set_checkpoints (<[-1 := initialState]> (checkpoints f)) f) ;;
           rebuildFrom (Z.to_nat (index forked + 1))
             (numOf (checkpointInterval (options s)))
             (numOf (checkpointInterval (options s)) - 1)) forked with
    | (forked', Ok _) => Ok forked'
    | (_, Throw e) => Throw e
    end
  else Ok forked.

(** [clear] *)
Definition clear : M unit :=
  modify (set_events []) ;;
  modify (set_index (-1)) ;;
  modify (set_checkpoints ∅) ;;
  modify (set_metadata ∅) ;;
  s ← get;
  when (checkpointsOn s)
    (modify (λ s, set_checkpoints (<[-1 := initialState]> (checkpoints s)) s)).


(** ** Histories of calls *)

(** The public operations that change a store (or, for [fork], hand over a
    new one), with their arguments. *)
Inductive Op :=
| OAppend (ep : P) (now_id now_ts : Z)
| OUndo
| ORedo
| ONavigate (i : Z)
| ONavigateToTime (t : Z)
| ORestore (snapshot : Snapshot)
| OClear
| OSetMetadata (k : string) (v : V)
| OFork.

(** The store one holds after the call: the receiver as the call left it
    (also when it threw), the new store after a successful [fork]. *)
Definition exec (op : Op) (s : Store) : Store :=
  match op with
  | OAppend ep now_id now_ts => (append ep now_id now_ts s).1
  | OUndo => (undo s).1
  | ORedo => (redo s).1
  | ONavigate i => (navigate i s).1
  | ONavigateToTime t => (navigateToTime t s).1
  | ORestore snapshot => (restore snapshot s).1
  | OClear => (clear s).1
  | OSetMetadata k v => (setMetadata k v s).1
  | OFork => match fork s with Ok forked => forked | Throw _ => s end
  end.

(** The store on which the eviction test of [append] is made: the receiver
    after the truncation branch. *)
Definition truncated (s : Store) : Store :=
  if index s <? len s - 1 then truncateFuture s else s.

(** An append that runs the eviction branch with checkpointing on, that is,
    one that replaces the checkpoints by a seed checkpoint. *)
Definition compacts (op : Op) (s : Store) : bool :=
  match op with
  | OAppend _ _ _ => overflows (truncated s) && checkpointsOn s
  | _ => false
  end.

(** A snapshot in the persisted layout: its cursor lies in
    [-1 .. events.length - 1]. *)
Definition snapshotInRange (snapshot : Snapshot) : Prop :=
  ∀ evs, snap_events snapshot = Some evs →
    -1 ≤ snap_index snapshot ≤ Z.of_nat (length evs) - 1.

Definition opInRange (op : Op) : Prop :=
  match op with
  | ORestore snapshot => snapshotInRange snapshot
  | _ => True
  end.

(** Stores obtained from [new o] by public operations, where [restore] is
    given snapshots in the persisted layout.  With [compaction = false] the
    appends that install a seed checkpoint are left out. *)
Inductive reachable (compaction : bool) (o : EventStoreOptions) : Store → Prop :=
| reach_new : reachable compaction o (new o)
| reach_step s op :
    reachable compaction o s →
    opInRange op →
    (compaction = false → compacts op s = false) →
    reachable compaction o (exec op s).

(** The store after [this.events.push(event); this.index++]. *)
Definition pushEvent (e : Event) (s : Store) : Store :=
  set_index (index s + 1) (set_events (events s ++ [e]) s).

(** The store after the eviction branch, given the checkpoints it leaves. *)
Definition evictedWith (cps : gmap Z S) (s : Store) : Store :=
  let evs := sliceFrom (len s / 2) (events s) in
  mkStore evs (Z.of_nat (length evs) - 1) cps (idCounter s) (metadata s) (options s).

(** The store after [this.checkpoints.set(i, st)]. *)
Definition setCheckpoint (i : Z) (st : S) (s : Store) : Store :=
  set_checkpoints (<[i := st]> (checkpoints s)) s.

(** The last two steps of [append]: the interval checkpoint and the
    projection handed to the listeners. *)
Definition finishAppend (e : Event) (s : Store) : Store * Result Event :=
  if intervalReached s then
    match projectAtIndex (index s) s with
    | Some st =>
        match projectAtIndex (index s) (setCheckpoint (index s) st s) with
        | Some _ => (setCheckpoint (index s) st s, Ok e)
        | None => (setCheckpoint (index s) st s, Throw ReducerFault)
        end
    | None => (s, Throw ReducerFault)
    end
  else
    match projectAtIndex (index s) s with
    | Some _ => (s, Ok e)
    | None => (s, Throw ReducerFault)
    end.

(** The store after the first four assignments of [restore]. *)
Definition replacedBy (evs : list Event) (snapshot : Snapshot) (s : Store) : Store :=
  mkStore evs (snap_index snapshot) ∅ (idCounter s)
    (default ∅ (snap_metadata snapshot)) (options s).

(** The store [fork] fills in before it rebuilds the checkpoints. *)
Definition forkBase (s : Store) : Store :=
  let forked := new (options s) in
  let forked := set_events (getActiveEvents s) forked in
  let forked := set_index (len forked - 1) forked in
  set_metadata (metadata s) forked.

(** A reducer that never throws. *)
Definition total : Prop := ∀ st e, is_Some (reducer st e).

(** ** Invariants *)

(** Spec invariant 1. *)
Definition indexInRange (s : Store) : Prop := -1 ≤ index s ≤ len s - 1.

(** The events at positions [0 .. p]. *)
Definition upTo (p : Z) (s : Store) : list Event :=
  take (Z.to_nat (p + 1)) (events s).

(** Every checkpoint at a log position holds the fold of the events up to
    that position, preceded by [history], the events that an eviction has
    dropped from the front of the log. *)
Definition cached (history : list Event) (s : Store) : Prop :=
  ∀ k v, checkpoints s !! k = Some v → 0 ≤ k →
    k < len s ∧ reduce (history ++ upTo k s) initialState = Some v.

(** With checkpointing off nothing is remembered of dropped events; with
    checkpointing on, their contribution is reachable through the
    checkpoint at position [0]. *)
Definition coherent (history : list Event) (s : Store) : Prop :=
  if checkpointsOn s then
    cached history s ∧ (history ≠ [] → is_Some (checkpoints s !! 0))
  else history = [].

Definition inv (o : EventStoreOptions) (history : list Event) (s : Store) : Prop :=
  options s = withDefaults o ∧ indexInRange s ∧ coherent history s.

(** The dropped events still accounted for after the truncation branch:
    truncating at the cursor [-1] removes every checkpoint at a log
    position and with it the seed of an earlier eviction. *)
Definition historyAfterTruncation (history : list Event) (s : Store) : list Event :=
  if index s <? 0 then [] else history.

(** The dropped events accounted for after a successful eviction. *)
Definition historyAfterEviction (history : list Event) (s : Store) : list Event :=
  if checkpointsOn s
  then history ++ take (Z.to_nat (len s / 2)) (events s)
  else history.

(** The dropped events accounted for after [restore]: none, unless the
    call failed on a snapshot without events and left the store as it was. *)
Definition historyAfterRestore (history : list Event) (snapshot : Snapshot)
    : list Event :=
  match snap_events snapshot with Some _ => [] | None => history end.

(** ** The specification's reading of [navigateToTime] *)

(** Written from the specification: the greatest log position whose event
    has a timestamp [<= t], or [-1] if there is none.  [i] is the position
    of the head of [evs]. *)
Fixpoint spec_lastAtOrBefore (t : Z) (evs : list Event) (i best : Z) : Z :=
  match evs with
  | [] => best
  | e :: rest =>
      spec_lastAtOrBefore t rest (i + 1)
        (if ev_timestamp e <=? t then i else best)
  end.

Definition spec_navigateToTime_target (t : Z) (s : Store) : Z :=
  spec_lastAtOrBefore t (events s) 0 (-1).

(** Timestamps non-decreasing in log order. *)
Fixpoint nondecreasing (evs : list Event) : Prop :=
  match evs with
  | [] => True
  | e :: rest =>
      (∀ e', e' ∈ rest → ev_timestamp e ≤ ev_timestamp e') ∧ nondecreasing rest
  end.

(** ** Callers of the store *)

(** [rewind] of the object returned by [init] ([src/index.ts]). *)
Definition rewind (steps : Z) : M unit :=
  s ← get;
  let newIndex := Z.max (-1) (getIndex s - steps) in
  navigate newIndex.

(** [BaseAdapter] ([src/adapters/BaseAdapter.ts]): its [store] field is the
    state of the computation; the adapter's listeners are external callbacks
    like those of the store, called with the state that [notifyListeners]
    projects. *)
Definition notifyListeners : M unit :=
  state ← project; mret tt.

Definition BaseAdapter_dispatch (ep : P) (now_id now_ts : Z) : M unit :=
  append ep now_id now_ts ;; notifyListeners.

Definition BaseAdapter_undo : M unit :=
  b ← undo; when b notifyListeners.

Definition BaseAdapter_redo : M unit :=
  b ← redo; when b notifyListeners.

Definition BaseAdapter_getState : M S := project.

Definition BaseAdapter_navigateToTime (t : Z) : M unit :=
  navigateToTime t ;; notifyListeners.

(** The operations that only move the cursor. *)
Definition isNavigation (op : Op) : bool :=
  match op with
  | OUndo | ORedo | ONavigate _ | ONavigateToTime _ => true
  | _ => false
  end.

(** The operations that bring in events made by another store, or hand
    over a store whose id counter restarts at 0: [restore] and [fork]. *)
Definition importsEvents (op : Op) : bool :=
  match op with
  | ORestore _ | OFork => true
  | _ => false
  end.

(** Stores grown from [new o] by the other operations. *)
Inductive grown (o : EventStoreOptions) : Store → Prop :=
| grown_new : grown o (new o)
| grown_step s op :
    grown o s → importsEvents op = false → grown o (exec op s).

(** Spec invariant 3: every checkpoint sits at [-1] or at a log position,
    and there is none at all while checkpointing is off. *)
Definition checkpointsInRange (s : Store) : Prop :=
  (∀ k v, checkpoints s !! k = Some v → -1 ≤ k ≤ len s - 1)
  ∧ (checkpointsOn s = false → checkpoints s = ∅).

End Core.

Arguments Event P : clear implicits.
Arguments Snapshot P S V : clear implicits.
Arguments Store P S V : clear implicits.
Arguments Op P S V : clear implicits.

(** ** [init] ([src/index.ts]) *)

(** The fields of [TerminalsConfig] from which [init] builds the options of
    its store. *)
Record TerminalsConfig := mkConfig {
  cfg_maxEvents : option N;
  cfg_enableCheckpoints : option bool
}.

(** [storeOptions] of [init]:
    [{ maxEvents: config.maxEvents || 10000,
       enableCheckpoints: config.enableCheckpoints !== false,
       checkpointInterval: 100, ... }] *)
Definition storeOptions (config : TerminalsConfig) : EventStoreOptions :=
  {| maxEvents :=
       Some (if truthyN (cfg_maxEvents config)
             then default 0%N (cfg_maxEvents config) else 10000%N);
     enableCheckpoints :=
       Some (match cfg_enableCheckpoints config with
             | Some false => false
             | _ => true
             end);
     checkpointInterval := Some 100%N |}.

(** ** A counter store

    The reducer of the test suite, reduced to the event kind the scenarios
    use: the payload of an event is the amount it adds. *)
Module Counter.

Definition State := Z.
Definition CEvent := Event Z.
Definition CStore := Store Z Z unit.

Definition reducer (st : State) (e : CEvent) : option State :=
  Some (st + ev_payload e).

(** A reducer that throws on a negative amount. *)
Definition strictReducer (st : State) (e : CEvent) : option State :=
  if ev_payload e <? 0 then None else Some (st + ev_payload e).

(** [n] calls of [append] with amount [1], the clock reading [t]. *)
Definition appendOnes (n : nat) (t : Z) (s : CStore) : CStore :=
  Nat.iter n (λ s, exec 0 reducer (OAppend 1 t t) s) s.

(** [new EventStore({value: 0}, reducer, {maxEvents: 5})] after ten appends. *)
Definition limited10 : CStore :=
  appendOnes 10 1000 (new 0 (mkOptions (Some 5%N) None None)).

(** Options with checkpointing switched on and a log of at most two events. *)
Definition smallOptions : EventStoreOptions :=
  mkOptions (Some 2%N) (Some true) None.

(** Three appends into a store of at most two events: the third one evicts. *)
Definition evicted3 : CStore := appendOnes 3 1000 (new 0 smallOptions).

(** What [snapshot()] returns on [evicted3] at clock reading 2000. *)
Definition evictedSnapshot : Snapshot Z Z unit :=
  {| snap_events := Some (events evicted3);
     snap_index := index evicted3;
     snap_state := Some 3;
     snap_timestamp := 2000;
     snap_metadata := Some (metadata evicted3) |}.

(** [new EventStore({value: 0}, reducer)] *)
Definition defaults : EventStoreOptions := mkOptions None None None.

Definition limitedOptions : EventStoreOptions := mkOptions (Some 5%N) None None.

(** Two appends, and five appends that fill a log of at most five events. *)
Definition twoAppends : CStore := appendOnes 2 1000 (new 0 defaults).
Definition twoAppendsSeeded : CStore := appendOnes 2 1000 (new 0 smallOptions).
Definition fiveAppends : CStore := appendOnes 5 1000 (new 0 limitedOptions).

(** The scenario of the test "branching timeline" before its last append:
    add 5, add 3, undo. *)
Definition branchPoint : CStore :=
  exec 0 reducer OUndo
    (exec 0 reducer (OAppend 3 2 2)
       (exec 0 reducer (OAppend 5 1 1) (new 0 defaults))).

(** Two appends between which the clock went back from 5 to 3. *)
Definition clockWentBack : CStore :=
  exec 0 reducer (OAppend 1 3 3)
    (exec 0 reducer (OAppend 1 5 5) (new 0 defaults)).

(** A snapshot without [state] whose index is out of range. *)
Definition statelessSnapshot : Snapshot Z Z unit :=
  {| snap_events := Some [];
     snap_index := 7;
     snap_state := None;
     snap_timestamp := 0;
     snap_metadata := None |}.

(** What [fork()] returns on [twoAppends]. *)
Definition forkedTwo : CStore :=
  match fork 0 reducer twoAppends with
  | Ok forked => forked
  | Throw _ => twoAppends
  end.

(** What [snapshot()] returns on [twoAppends] at clock reading 2000. *)
Definition twoSnapshot : Snapshot Z Z unit :=
  {| snap_events := Some (events twoAppends);
     snap_index := index twoAppends;
     snap_state := Some 2;
     snap_timestamp := 2000;
     snap_metadata := Some (metadata twoAppends) |}.

(** [init({maxEvents: 0})] *)
Definition zeroConfig : TerminalsConfig := mkConfig (Some 0%N) None.

(** Two appends into the store that [init({maxEvents: 0})] creates. *)
Definition initTwo : CStore := appendOnes 2 1000 (new 0 (storeOptions zeroConfig)).

(** Options with checkpointing switched off and a log of at most two events,
    and two appends into such a store. *)
Definition offOptions : EventStoreOptions :=
  mkOptions (Some 2%N) (Some false) None.
Definition twoAppendsOff : CStore := appendOnes 2 1000 (new 0 offOptions).

(** Options with a checkpoint at every position; two appends; and three
    appends followed by two undos, which leave the checkpoints of the
    positions 1 and 2 beyond the cursor. *)
Definition everyOptions : EventStoreOptions :=
  mkOptions None (Some true) (Some 1%N).
Definition twoEvery : CStore := appendOnes 2 1000 (new 0 everyOptions).
Definition undoneTwice : CStore :=
  exec 0 reducer OUndo
    (exec 0 reducer OUndo (appendOnes 3 1000 (new 0 everyOptions))).

End Counter.

(** * Properties *)

(** ** Slices and folds *)

Lemma slice_between {A} (l : list A) (a b : Z) :
  0 ≤ a → 0 ≤ b →
  slice a b l = drop (Z.to_nat a) (take (Z.to_nat b) l).
Proof.
  intros Ha Hb. unfold slice, relIndex.
  destruct (Z.ltb_spec a 0), (Z.ltb_spec b 0); try lia.
  apply list_eq; intros i.
  rewrite lookup_drop, !lookup_take, lookup_drop.
  repeat case_decide;
    first [ done | lia | f_equal; lia
          | symmetry; apply lookup_ge_None; lia
          | apply lookup_ge_None; lia ].
Qed.

Lemma slice_prefix {A} (l : list A) (p : Z) :
  -1 ≤ p → slice 0 (p + 1) l = take (Z.to_nat (p + 1)) l.
Proof.
  intros Hp. rewrite slice_between by lia. apply drop_0.
Qed.

Lemma sliceFrom_drop {A} (l : list A) (a : Z) :
  0 ≤ a → sliceFrom a l = drop (Z.to_nat a) l.
Proof.
  intros Ha. unfold sliceFrom. rewrite slice_between by lia.
  rewrite Nat2Z.id. by rewrite take_ge.
Qed.

Lemma slice_split {A} (l : list A) (k p : Z) :
  -1 ≤ k → k ≤ p →
  take (Z.to_nat (p + 1)) l
  = take (Z.to_nat (k + 1)) l ++ slice (k + 1) (p + 1) l.
Proof.
  intros Hk Hp. rewrite slice_between by lia.
  rewrite <- (take_drop (Z.to_nat (k + 1)) (take (Z.to_nat (p + 1)) l)) at 1.
  f_equal. rewrite take_take. f_equal. lia.
Qed.

Section Properties.
Context {P S V : Type}.
Variable initialState : S.
Variable reducer : S → Event P → option S.

#[local] Abbreviation Store := (Store P S V).
#[local] Abbreviation reduce := (reduce reducer).
#[local] Abbreviation new := (new (V := V) initialState).
#[local] Abbreviation nearestCheckpoint := (nearestCheckpoint initialState).
#[local] Abbreviation projectAtIndex := (projectAtIndex (V := V) initialState reducer).
#[local] Abbreviation projectAtIndexM := (projectAtIndexM (V := V) initialState reducer).
#[local] Abbreviation project := (project (V := V) initialState reducer).
#[local] Abbreviation finishAppend := (finishAppend (V := V) initialState reducer).
#[local] Abbreviation forkBase := (forkBase (V := V) initialState).
#[local] Abbreviation evict := (evict (V := V) initialState reducer).
#[local] Abbreviation append := (append (V := V) initialState reducer).
#[local] Abbreviation undo := (undo (V := V) initialState reducer).
#[local] Abbreviation redo := (redo (V := V) initialState reducer).
#[local] Abbreviation navigate := (navigate (V := V) initialState reducer).
#[local] Abbreviation navigateToTime := (navigateToTime (V := V) initialState reducer).
#[local] Abbreviation snapshot := (snapshot (V := V) initialState reducer).
#[local] Abbreviation rebuildFrom := (rebuildFrom (V := V) initialState reducer).
#[local] Abbreviation rebuildCheckpoints := (rebuildCheckpoints (V := V) initialState reducer).
#[local] Abbreviation restore := (restore (V := V) initialState reducer).
#[local] Abbreviation fork := (fork (V := V) initialState reducer).
#[local] Abbreviation clear := (clear (P := P) (V := V) initialState).
#[local] Abbreviation exec := (exec (V := V) initialState reducer).
#[local] Abbreviation reachable := (reachable (V := V) initialState reducer).
#[local] Abbreviation cached := (cached (V := V) initialState reducer).
#[local] Abbreviation coherent := (coherent (V := V) initialState reducer).
#[local] Abbreviation inv := (inv (V := V) initialState reducer).

#[local] Abbreviation grown := (grown (V := V) initialState reducer).
#[local] Abbreviation rewind := (rewind (V := V) initialState reducer).
#[local] Abbreviation notifyListeners := (notifyListeners (V := V) initialState reducer).
#[local] Abbreviation BaseAdapter_dispatch := (BaseAdapter_dispatch (V := V) initialState reducer).
#[local] Abbreviation BaseAdapter_undo := (BaseAdapter_undo (V := V) initialState reducer).
#[local] Abbreviation BaseAdapter_redo := (BaseAdapter_redo (V := V) initialState reducer).
#[local] Abbreviation BaseAdapter_navigateToTime := (BaseAdapter_navigateToTime (V := V) initialState reducer).

Implicit Types (s : Store) (l : list (Event P)) (h : list (Event P)).

Lemma reduce_app l1 l2 (a : S) :
  reduce (l1 ++ l2) a = reduce l1 a ≫= reduce l2.
Proof.
  revert a. induction l1 as [|e l1 IH]; intros a; simpl; [done|].
  destruct (reducer a e); simpl; [apply IH | done].
Qed.

#[local] Abbreviation total := (total reducer).

Lemma reduce_total l (a : S) : total → is_Some (reduce l a).
Proof.
  intros Ht. revert a. induction l as [|e l IH]; intros a; simpl; [by eexists|].
  destruct (Ht a e) as [a' ->]. apply IH.
Qed.

(** ** The checkpoint scan *)

(** The scan of [projectAtIndex] returns the checkpoint with the greatest
    position in [0 .. target], or the pair [(-1, initialState)] when there is
    none, whatever the order in which the entries are visited. *)
Lemma nearestCheckpoint_spec (target : Z) (cps : gmap Z S) :
  let r := nearestCheckpoint target cps in
  ((r = (-1, initialState) ∧ ∀ k, is_Some (cps !! k) → k ≤ target → k ≤ -1)
   ∨ (cps !! r.1 = Some r.2 ∧ -1 < r.1 ≤ target
      ∧ ∀ k, is_Some (cps !! k) → k ≤ target → k ≤ r.1)).
Proof.
  unfold nearestCheckpoint.
  apply (map_fold_weak_ind (λ r m,
    (r = (-1, initialState) ∧ ∀ k, is_Some (m !! k) → k ≤ target → k ≤ -1)
    ∨ (m !! r.1 = Some r.2 ∧ -1 < r.1 ≤ target
       ∧ ∀ k, is_Some (m !! k) → k ≤ target → k ≤ r.1))).
  - left. split; [done|]. intros k [? Hk]. by rewrite lookup_empty in Hk.
  - intros i x m r Hi IH. unfold nearestStep.
    destruct (Z.leb_spec i target) as [Hle|Hgt]; simpl.
    + destruct (Z.ltb_spec r.1 i) as [Hlt|Hge]; simpl.
      * right. rewrite lookup_insert_eq. split; [done|].
        split; [destruct IH as [[-> _]|(_ & ? & _)]; simpl in *; lia|].
        intros k [y Hk] Hkt. destruct (decide (i = k)) as [->|Hne]; [lia|].
        rewrite lookup_insert_ne in Hk by done.
        destruct IH as [[-> IH]|(_ & _ & IH)]; simpl in *;
          specialize (IH k (ex_intro _ y Hk) Hkt); lia.
      * destruct IH as [[-> IH]|(Hr & Hb & IH)].
        -- simpl in *. left. split; [done|].
           intros k [y Hk] Hkt. destruct (decide (i = k)) as [->|Hne]; [lia|].
           rewrite lookup_insert_ne in Hk by done. eauto.
        -- right. assert (i ≠ r.1) by (intros ->; by rewrite Hi in Hr).
           rewrite lookup_insert_ne by done. split; [done|]. split; [done|].
           intros k [y Hk] Hkt. destruct (decide (i = k)) as [->|Hne]; [lia|].
           rewrite lookup_insert_ne in Hk by done. eauto.
    + destruct IH as [[-> IH]|(Hr & Hb & IH)].
      * left. split; [done|].
        intros k [y Hk] Hkt. destruct (decide (i = k)) as [->|Hne]; [lia|].
        rewrite lookup_insert_ne in Hk by done. eauto.
      * right. assert (i ≠ r.1) by (intros ->; by rewrite Hi in Hr).
        rewrite lookup_insert_ne by done. split; [done|]. split; [done|].
        intros k [y Hk] Hkt. destruct (decide (i = k)) as [->|Hne]; [lia|].
        rewrite lookup_insert_ne in Hk by done. eauto.
Qed.


(** ** Projection through the checkpoints *)

Lemma projectAtIndex_negative s (p : Z) :
  p < 0 → projectAtIndex p s = Some initialState.
Proof.
  intros Hp. unfold projectAtIndex. by destruct (Z.ltb_spec p 0); [|lia].
Qed.

(** In a coherent store the checkpoint-seeded projection at a log position
    is the fold of the dropped events and of the log up to that position. *)
Lemma projectAtIndex_coherent h s (p : Z) :
  coherent h s → 0 ≤ p →
  projectAtIndex p s = reduce (h ++ upTo p s) initialState.
Proof.
  intros Hco Hp. unfold projectAtIndex, coherent, upTo in *.
  destruct (Z.ltb_spec p 0); [lia|].
  destruct (checkpointsOn s).
  - destruct Hco as [Hc Hh].
    pose proof (nearestCheckpoint_spec p (checkpoints s)) as Hn.
    destruct (nearestCheckpoint p (checkpoints s)) as [k v]; simpl in Hn.
    destruct Hn as [[Heq Hnone]|(Hk & Hb & _)].
    + inversion Heq; subst k v.
      destruct h as [|e h].
      * simpl. by rewrite slice_prefix by lia.
      * destruct Hh as [x Hx]; [done|].
        specialize (Hnone 0 (ex_intro _ x Hx)). lia.
    + destruct (Hc k v Hk) as [_ Hv]; [lia|]. unfold upTo in Hv.
      rewrite (slice_split (events s) k p), app_assoc, reduce_app by lia.
      by rewrite Hv.
  - subst h. simpl. by rewrite slice_prefix by lia.
Qed.

Lemma projectAtIndex_total s (p : Z) : total → is_Some (projectAtIndex p s).
Proof.
  intros Ht. unfold projectAtIndex.
  destruct (p <? 0); [by eexists|].
  destruct (checkpointsOn s); [|by apply reduce_total].
  destruct (nearestCheckpoint p (checkpoints s)). by apply reduce_total.
Qed.


(** ** The methods, unfolded *)

Lemma project_eq s :
  project s = match projectAtIndex (index s) s with
              | Some st => (s, Ok st)
              | None => (s, Throw ReducerFault)
              end.
Proof. reflexivity. Qed.

Lemma evict_eq s :
  evict s =
  if checkpointsOn s then
    match projectAtIndex (len s / 2) s with
    | Some st => (evictedWith {[ 0 := st ]} s, Ok tt)
    | None => (s, Throw ReducerFault)
    end
  else (evictedWith (checkpoints s) s, Ok tt).
Proof.
  unfold evict, mbind, M_bind, get, when, modify, projectAtIndexM; simpl.
  destruct (checkpointsOn s); simpl; [|done].
  by destruct (projectAtIndex (len s / 2) s).
Qed.

Lemma finishAppend_eq (e : Event P) s :
  (s' ← get;
   when (intervalReached s')
     (st ← project;
      modify (λ s, set_checkpoints (<[index s := st]> (checkpoints s)) s)) ;;
   newState ← project;
   mret e) s
  = finishAppend e s.
Proof.
  unfold finishAppend, setCheckpoint, project, projectAtIndexM.
  unfold mbind, M_bind, get, when, modify, mret, M_ret; simpl.
  destruct (intervalReached s); simpl.
  - destruct (projectAtIndex (index s) s); simpl; [|done].
    by destruct (projectAtIndex _ _).
  - by destruct (projectAtIndex (index s) s).
Qed.

Lemma append_eq (ep : P) (now_id now_ts : Z) s :
  append ep now_id now_ts s =
  let s1 := truncated s in
  let e := makeEvent ep now_id now_ts (idCounter s1) in
  let s2 := set_idCounter (idCounter s1 + 1)%N s1 in
  if overflows s2 then
    match evict s2 with
    | (s3, Ok _) => finishAppend e (pushEvent e s3)
    | (s3, Throw f) => (s3, Throw f)
    end
  else finishAppend e (pushEvent e s2).
Proof.
  unfold append, truncated.
  unfold mbind at 1 2 3 4 5 6, M_bind at 1 2 3 4 5 6.
  unfold get at 1 2 3, when at 1 2, modify at 1 2 3 4; simpl.
  destruct (index s <? len s - 1); simpl;
    (destruct (overflows _); simpl;
      [destruct (evict _) as [s3 [[]|f]]; simpl; [|done]|];
      apply finishAppend_eq).
Qed.


(** ** The truncation branch *)

Lemma truncated_index s : index (truncated s) = index s.
Proof. unfold truncated. by destruct (index s <? len s - 1). Qed.

Lemma truncated_options s : options (truncated s) = options s.
Proof. unfold truncated. by destruct (index s <? len s - 1). Qed.

Lemma truncated_events s :
  -1 ≤ index s →
  events (truncated s) = take (Z.to_nat (index s + 1)) (events s).
Proof.
  intros Hi. unfold truncated, len.
  destruct (Z.ltb_spec (index s) (Z.of_nat (length (events s)) - 1)); simpl.
  - by apply slice_prefix.
  - rewrite take_ge; [done|lia].
Qed.

Lemma truncated_len s : indexInRange s → len (truncated s) = index s + 1.
Proof.
  intros [Hlo Hhi]. unfold len in *. rewrite truncated_events by done.
  rewrite length_take. lia.
Qed.

Lemma truncated_checkpoints s (k : Z) :
  -1 ≤ index s → k ≤ index s →
  checkpoints (truncated s) !! k = checkpoints s !! k.
Proof.
  intros Hi Hk. unfold truncated.
  destruct (index s <? len s - 1); simpl; [|done].
  destruct (checkpoints s !! k) as [x|] eqn:Hx.
  - by apply map_lookup_filter_Some.
  - apply map_lookup_filter_None. left. done.
Qed.

Lemma truncated_checkpoints_Some s (k : Z) (v : S) :
  checkpoints (truncated s) !! k = Some v → checkpoints s !! k = Some v.
Proof.
  unfold truncated. destruct (index s <? len s - 1); simpl; [|done].
  intros H. by apply map_lookup_filter_Some in H as [? _].
Qed.


Lemma truncated_inv o h s :
  inv o h s →
  inv o (historyAfterTruncation h s) (truncated s)
  ∧ index (truncated s) = len (truncated s) - 1.
Proof.
  intros (Ho & Hi & Hco).
  pose proof (truncated_len s Hi) as Hlen.
  assert (-1 ≤ index s) as Hlo by apply Hi.
  split; [|rewrite truncated_index; lia].
  split; [by rewrite truncated_options|].
  split; [unfold indexInRange; rewrite truncated_index; lia|].
  unfold coherent, cached, checkpointsOn, historyAfterTruncation in *.
  rewrite truncated_options.
  destruct (truthyB (enableCheckpoints (options s))).
  - destruct Hco as [Hc Hh]. split.
    + intros k v Hk Hk0.
      assert (checkpoints s !! k = Some v) as Hk' by by apply truncated_checkpoints_Some.
      destruct (Hc k v Hk' Hk0) as [Hlt Hv].
      assert (k ≤ index s) as Hki.
      { unfold truncated in Hk. destruct (Z.ltb_spec (index s) (len s - 1)).
        - simpl in Hk. by apply map_lookup_filter_Some in Hk as [_ ?].
        - destruct Hi. lia. }
      split; [lia|].
      destruct (Z.ltb_spec (index s) 0); [lia|].
      unfold upTo in *. rewrite truncated_events by done.
      rewrite take_take. rewrite <- Hv. do 3 f_equal. lia.
    + destruct (Z.ltb_spec (index s) 0); [done|].
      intros Hne. rewrite truncated_checkpoints by (done || lia). by apply Hh.
  - by destruct (index s <? 0).
Qed.


(** ** Eviction, push and checkpoint *)

Lemma inv_set_idCounter o h s (n : N) : inv o h s → inv o h (set_idCounter n s).
Proof. done. Qed.

Lemma inv_set_metadata o h s (m : gmap string V) :
  inv o h s → inv o h (set_metadata m s).
Proof. done. Qed.

Lemma inv_set_index o h s (i : Z) :
  inv o h s → -1 ≤ i ≤ len s - 1 → inv o h (set_index i s).
Proof. intros (Ho & Hi & Hco) Hr. done. Qed.

Lemma overflows_nonempty s : overflows s = true → 0 < len s.
Proof.
  unfold overflows, truthyN, numOf. destruct (maxEvents (options s)) as [n|]; [|done].
  intros [Hn Hle]%andb_prop.
  apply negb_true_iff, N.eqb_neq in Hn. apply Z.leb_le in Hle. lia.
Qed.

Lemma evictedWith_events (cps : gmap Z S) s :
  events (evictedWith cps s) = drop (Z.to_nat (len s / 2)) (events s).
Proof.
  unfold evictedWith; simpl. apply sliceFrom_drop.
  unfold len. apply Z.div_pos; lia.
Qed.

Lemma evictedWith_len (cps : gmap Z S) s :
  len (evictedWith cps s) = len s - len s / 2.
Proof.
  unfold len at 1. rewrite evictedWith_events, length_drop.
  unfold len. assert (0 ≤ Z.of_nat (length (events s)) / 2
    ≤ Z.of_nat (length (events s))) by (split; [apply Z.div_pos|apply Z.div_le_upper_bound]; lia).
  lia.
Qed.

Lemma evictedWith_index (cps : gmap Z S) s :
  index (evictedWith cps s) = len (evictedWith cps s) - 1.
Proof. done. Qed.

Lemma evict_inv o h s s' (r : Result unit) :
  inv o h s → 0 < len s → evict s = (s', r) →
  match r with
  | Ok _ =>
      inv o (historyAfterEviction h s) s' ∧ index s' = len s' - 1 ∧ 0 ≤ index s'
  | Throw _ => s' = s
  end.
Proof.
  intros (Ho & Hi & Hco) Hpos. rewrite evict_eq.
  assert (0 ≤ len s / 2 < len s) as Hmid.
  { split; [apply Z.div_pos; lia|apply Z.div_lt_upper_bound; lia]. }
  unfold historyAfterEviction.
  destruct (checkpointsOn s) eqn:Hon.
  - rewrite (projectAtIndex_coherent h s) by (done || lia).
    destruct (reduce _ _) as [st|] eqn:Hst; intros [= <- <-]; [|done].
    pose proof (evictedWith_len {[0 := st]} s) as Hlen.
    split; [|rewrite evictedWith_index; lia].
    split; [done|]. split; [unfold indexInRange; rewrite evictedWith_index; lia|].
    unfold coherent. change (checkpointsOn (evictedWith {[0 := st]} s)) with (checkpointsOn s).
    rewrite Hon. split.
    + intros k v Hk Hk0. change (checkpoints (evictedWith {[0 := st]} s)) with ({[0 := st]} : gmap Z S) in Hk.
      apply lookup_singleton_Some in Hk as [<- <-]. split; [lia|].
      rewrite <- Hst. unfold upTo. rewrite evictedWith_events.
      rewrite <- app_assoc. do 2 f_equal.
      rewrite take_take_drop. f_equal. lia.
    + intros _. change (checkpoints (evictedWith {[0 := st]} s)) with ({[0 := st]} : gmap Z S).
      rewrite lookup_singleton_eq. by eexists.
  - intros [= <- <-].
    pose proof (evictedWith_len (checkpoints s) s) as Hlen.
    split; [|rewrite evictedWith_index; lia].
    split; [done|]. split; [unfold indexInRange; rewrite evictedWith_index; lia|].
    unfold coherent in *. change (checkpointsOn (evictedWith (checkpoints s) s)) with (checkpointsOn s).
    by rewrite Hon in *.
Qed.

Lemma pushEvent_len (e : Event P) s : len (pushEvent e s) = len s + 1.
Proof. unfold len, pushEvent; simpl. rewrite length_app; simpl. lia. Qed.

Lemma pushEvent_inv o h s (e : Event P) :
  inv o h s → index s = len s - 1 →
  inv o h (pushEvent e s)
  ∧ index (pushEvent e s) = len (pushEvent e s) - 1 ∧ 0 ≤ index (pushEvent e s).
Proof.
  intros (Ho & Hi & Hco) Hend. pose proof (pushEvent_len e s) as Hlen.
  assert (index (pushEvent e s) = index s + 1) as Hidx by done.
  assert (0 ≤ len s) by (unfold len; lia).
  split; [|lia].
  split; [done|]. split; [unfold indexInRange; lia|].
  unfold coherent in *. change (checkpointsOn (pushEvent e s)) with (checkpointsOn s).
  destruct (checkpointsOn s); [|done].
  destruct Hco as [Hc Hh]. split; [|done].
  intros k v Hk Hk0. destruct (Hc k v Hk Hk0) as [Hlt Hv].
  split; [lia|]. rewrite <- Hv. unfold upTo, pushEvent; simpl.
  rewrite take_app_le; [done|]. unfold len in Hlt. lia.
Qed.

Lemma setCheckpoint_inv o h s (i : Z) (st : S) :
  inv o h s → 0 ≤ i ≤ index s → projectAtIndex i s = Some st →
  inv o h (setCheckpoint i st s).
Proof.
  intros (Ho & Hi & Hco) Hr Hst.
  split; [done|]. split; [done|].
  rewrite (projectAtIndex_coherent h s) in Hst by (done || lia).
  unfold coherent in *. change (checkpointsOn (setCheckpoint i st s)) with (checkpointsOn s).
  destruct (checkpointsOn s); [|done].
  destruct Hco as [Hc Hh]. split.
  - intros k v Hk Hk0. unfold setCheckpoint in Hk; simpl in Hk.
    destruct (decide (i = k)) as [->|Hne].
    + rewrite lookup_insert_eq in Hk. injection Hk as <-.
      split; [unfold indexInRange, len in *; simpl; lia|exact Hst].
    + rewrite lookup_insert_ne in Hk by done. by apply Hc.
  - intros Hne. unfold setCheckpoint; simpl.
    destruct (decide (i = 0)) as [->|Hi0].
    + rewrite lookup_insert_eq. by eexists.
    + rewrite lookup_insert_ne by done. by apply Hh.
Qed.

Lemma finishAppend_store (e : Event P) s :
  (finishAppend e s).1 = s
  ∨ ∃ st, intervalReached s = true
          ∧ projectAtIndex (index s) s = Some st
          ∧ (finishAppend e s).1 = setCheckpoint (index s) st s.
Proof.
  unfold finishAppend. destruct (intervalReached s).
  - destruct (projectAtIndex (index s) s) as [st|] eqn:Hst; [|by left].
    right. exists st. by destruct (projectAtIndex _ (setCheckpoint _ _ _)).
  - left. by destruct (projectAtIndex (index s) s).
Qed.

Lemma finishAppend_inv o h s (e : Event P) :
  inv o h s → 0 ≤ index s → inv o h (finishAppend e s).1.
Proof.
  intros Hinv Hi. destruct (finishAppend_store e s) as [->|(st & _ & Hst & ->)]; [done|].
  apply setCheckpoint_inv; [done|lia|done].
Qed.


(** ** Every operation keeps the invariant *)

Lemma truncated_checkpointsOn s : checkpointsOn (truncated s) = checkpointsOn s.
Proof. unfold checkpointsOn. by rewrite truncated_options. Qed.

Lemma append_inv o h s (ep : P) (now_id now_ts : Z) :
  inv o h s →
  ∃ h', inv o h' (append ep now_id now_ts s).1
        ∧ (overflows (truncated s) && checkpointsOn s = false →
           h' = historyAfterTruncation h s).
Proof.
  intros Hinv. rewrite append_eq; simpl.
  destruct (truncated_inv o h s Hinv) as [H1 Hend].
  set (s1 := truncated s) in *. set (h1 := historyAfterTruncation h s) in *.
  set (e := makeEvent ep now_id now_ts (idCounter s1)).
  set (s2 := set_idCounter (idCounter s1 + 1)%N s1).
  assert (inv o h1 s2) as H2 by done.
  change (overflows s2) with (overflows s1).
  destruct (overflows s1) eqn:Hov.
  - destruct (evict s2) as [s3 r] eqn:He.
    apply (evict_inv o h1) in He; [|done|by apply overflows_nonempty].
    destruct r as [[]|f].
    + destruct He as (H3 & Hend3 & Hpos3).
      destruct (pushEvent_inv o _ s3 e H3 Hend3) as (H4 & _ & Hpos4).
      eexists. split; [by apply finishAppend_inv|].
      simpl. intros Hoff. unfold historyAfterEviction.
      change (checkpointsOn s2) with (checkpointsOn s1).
      unfold s1. by rewrite truncated_checkpointsOn, Hoff.
    + subst s3. exists h1. done.
  - destruct (pushEvent_inv o h1 s2 e H2 Hend) as (H4 & _ & Hpos4).
    exists h1. split; [by apply finishAppend_inv|done].
Qed.

Lemma undo_store s :
  (undo s).1 = if 0 <=? index s then set_index (index s - 1) s else s.
Proof.
  unfold undo, project, projectAtIndexM, mbind, M_bind, get, modify, mret, M_ret; simpl.
  destruct (0 <=? index s); [|done]. simpl. by destruct (projectAtIndex _ _).
Qed.

Lemma redo_store s :
  (redo s).1 = if index s <? len s - 1 then set_index (index s + 1) s else s.
Proof.
  unfold redo, project, projectAtIndexM, mbind, M_bind, get, modify, mret, M_ret; simpl.
  destruct (index s <? len s - 1); [|done]. simpl. by destruct (projectAtIndex _ _).
Qed.

Lemma navigate_store s (i : Z) :
  (navigate i s).1 = set_index (Z.max (-1) (Z.min i (len s - 1))) s.
Proof.
  unfold navigate, project, projectAtIndexM, mbind, M_bind, get, modify, when,
    mret, M_ret; simpl.
  destruct (negb _); [|done]. simpl. by destruct (projectAtIndex _ _).
Qed.

Lemma navigateToTime_store s (t : Z) :
  (navigateToTime t s).1 = (navigate (scanTime t (events s) 0 (-1)) s).1.
Proof. reflexivity. Qed.

Lemma undo_inv o h s : inv o h s → inv o h (undo s).1.
Proof.
  intros Hinv. rewrite undo_store.
  destruct (Z.leb_spec 0 (index s)); [|done].
  apply inv_set_index; [done|]. destruct Hinv as (_ & Hi & _).
  unfold indexInRange in Hi. lia.
Qed.

Lemma redo_inv o h s : inv o h s → inv o h (redo s).1.
Proof.
  intros Hinv. rewrite redo_store.
  destruct (Z.ltb_spec (index s) (len s - 1)); [|done].
  apply inv_set_index; [done|]. destruct Hinv as (_ & Hi & _).
  unfold indexInRange in Hi. lia.
Qed.

Lemma navigate_inv o h s (i : Z) : inv o h s → inv o h (navigate i s).1.
Proof.
  intros Hinv. rewrite navigate_store.
  apply inv_set_index; [done|]. assert (0 ≤ len s) by (unfold len; lia). lia.
Qed.


(** ** The checkpoint rebuilding loop *)

Lemma rebuildFrom_S (fuel : nat) (interval i : Z) s :
  rebuildFrom (Datatypes.S fuel) interval i s =
  if i <=? index s then
    match projectAtIndex i s with
    | Some st => rebuildFrom fuel interval (i + interval) (setCheckpoint i st s)
    | None => (s, Throw ReducerFault)
    end
  else (s, Ok tt).
Proof.
  simpl. unfold mbind at 1, M_bind at 1, get at 1; simpl.
  destruct (i <=? index s); [|done].
  unfold mbind at 1, M_bind at 1, projectAtIndexM at 1.
  by destruct (projectAtIndex i s).
Qed.

(** What the loop leaves untouched, and the invariant it keeps. *)
Lemma rebuildFrom_inv o h (fuel : nat) (interval : Z) :
  ∀ (i : Z) s, inv o h s → 0 ≤ i → 0 ≤ interval →
    let s' := (rebuildFrom fuel interval i s).1 in
    inv o h s' ∧ events s' = events s ∧ index s' = index s
    ∧ metadata s' = metadata s ∧ options s' = options s
    ∧ checkpoints s' !! (-1) = checkpoints s !! (-1).
Proof.
  induction fuel as [|fuel IH]; intros i s Hinv Hi Hint; [done|].
  cbv zeta in *. rewrite rebuildFrom_S.
  destruct (Z.leb_spec i (index s)); [|done].
  destruct (projectAtIndex i s) as [st|] eqn:Hst; [|done].
  destruct (IH (i + interval) (setCheckpoint i st s)) as (? & ? & ? & ? & ? & Hcp);
    [by apply setCheckpoint_inv|lia|lia|].
  split_and!; try done.
  rewrite Hcp. unfold setCheckpoint; simpl. apply lookup_insert_ne. lia.
Qed.

Lemma rebuildFrom_index (fuel : nat) (interval : Z) :
  ∀ (i : Z) s, index (rebuildFrom fuel interval i s).1 = index s.
Proof.
  induction fuel as [|fuel IH]; intros i s; [done|].
  rewrite rebuildFrom_S. destruct (i <=? index s); [|done].
  destruct (projectAtIndex i s); [|done]. by rewrite IH.
Qed.

(** The bound on the number of turns is not reached while the loop
    condition [i <= this.index] holds: more fuel changes nothing. *)
Lemma rebuildFrom_fuel (interval : Z) (fuel : nat) :
  1 ≤ interval →
  ∀ (i : Z) s, (Z.to_nat (index s - i + 1) ≤ fuel)%nat →
    rebuildFrom (Datatypes.S fuel) interval i s = rebuildFrom fuel interval i s.
Proof.
  intros Hint. induction fuel as [|fuel IH]; intros i s Hfuel.
  - rewrite rebuildFrom_S. destruct (Z.leb_spec i (index s)); [lia|done].
  - rewrite (rebuildFrom_S (Datatypes.S fuel)), (rebuildFrom_S fuel).
    destruct (Z.leb_spec i (index s)); [|done].
    destruct (projectAtIndex i s) as [st|]; [|done].
    apply IH. change (index (setCheckpoint i st s)) with (index s). lia.
Qed.

Lemma rebuildCheckpoints_fuel s (extra : nat) :
  truthyN (checkpointInterval (options s)) = true →
  rebuildCheckpoints s =
  rebuildFrom (Z.to_nat (index s + 1) + extra)
    (numOf (checkpointInterval (options s)))
    (numOf (checkpointInterval (options s)) - 1) s.
Proof.
  intros Ht. unfold rebuildCheckpoints, mbind, M_bind, get; simpl.
  assert (1 ≤ numOf (checkpointInterval (options s))) as Hint.
  { unfold truthyN, numOf in *. destruct (checkpointInterval (options s)); [|done].
    apply negb_true_iff, N.eqb_neq in Ht. lia. }
  induction extra as [|extra IH]; [by rewrite Nat.add_0_r|].
  rewrite Nat.add_succ_r, rebuildFrom_fuel; [done|done|lia].
Qed.


(** ** Restore, clear, fork *)

Lemma restore_eq (snapshot : Snapshot P S V) s :
  restore snapshot s =
  match snap_events snapshot with
  | None => (s, Throw TypeError)
  | Some evs =>
      let s0 := replacedBy evs snapshot s in
      if checkpointsOn s then
        if truthyN (checkpointInterval (options s)) then
          rebuildCheckpoints (setCheckpoint (-1) initialState s0)
        else (setCheckpoint (-1) initialState s0, Ok tt)
      else (s0, Ok tt)
  end.
Proof.
  unfold restore. destruct (snap_events snapshot) as [evs|]; [|done].
  unfold mbind, M_bind, get, modify, when, mret, M_ret, checkpointsOn; simpl.
  destruct (truthyB (enableCheckpoints (options s))); [|done]. simpl.
  destruct (truthyN (checkpointInterval (options s))); [|done].
  by destruct (rebuildCheckpoints _) as [? [[]|?]].
Qed.

Lemma replacedBy_inv o h (evs : list (Event P)) (snapshot : Snapshot P S V) s :
  inv o h s → -1 ≤ snap_index snapshot ≤ Z.of_nat (length evs) - 1 →
  inv o [] (replacedBy evs snapshot s)
  ∧ inv o [] (setCheckpoint (-1) initialState (replacedBy evs snapshot s)).
Proof.
  intros (Ho & Hi & Hco) Hr.
  split; (split; [done|]; split; [done|]);
    unfold coherent;
    [change (checkpointsOn (replacedBy evs snapshot s)) with (checkpointsOn s)
    |change (checkpointsOn (setCheckpoint (-1) initialState (replacedBy evs snapshot s)))
       with (checkpointsOn s)];
    (destruct (checkpointsOn s); [|done]; split; [|done]);
    intros k v Hk Hk0; simpl in Hk.
  - by rewrite lookup_empty in Hk.
  - rewrite lookup_insert_ne in Hk by lia. by rewrite lookup_empty in Hk.
Qed.

Lemma restore_inv o h (snapshot : Snapshot P S V) s :
  inv o h s → snapshotInRange snapshot →
  inv o (historyAfterRestore h snapshot) (restore snapshot s).1.
Proof.
  intros Hinv Hr. rewrite restore_eq. unfold historyAfterRestore.
  destruct (snap_events snapshot) as [evs|] eqn:Hevs; [|done].
  destruct (replacedBy_inv o h evs snapshot s Hinv (Hr evs Hevs)) as [H0 H1].
  simpl. destruct (checkpointsOn s); [|done].
  destruct (truthyN (checkpointInterval (options s))) eqn:Ht; [|done].
  unfold rebuildCheckpoints, mbind, M_bind, get.
  apply rebuildFrom_inv; [done| |].
  - unfold truthyN, numOf in *. simpl.
    destruct (checkpointInterval (options s)); [|done].
    apply negb_true_iff, N.eqb_neq in Ht. lia.
  - unfold numOf. simpl. destruct (checkpointInterval (options s)); lia.
Qed.

Lemma clear_eq s :
  clear s =
  (mkStore [] (-1)
     (if checkpointsOn s then {[ -1 := initialState ]} else ∅)
     (idCounter s) ∅ (options s), Ok tt).
Proof.
  unfold clear, mbind, M_bind, get, modify, when, mret, M_ret, checkpointsOn; simpl.
  destruct (truthyB (enableCheckpoints (options s))); [|done]. simpl.
  by rewrite insert_empty.
Qed.

Lemma clear_inv o h s : inv o h s → inv o [] (clear s).1.
Proof.
  intros (Ho & Hi & Hco). rewrite clear_eq; simpl.
  split; [done|]. split; [done|]. unfold coherent, checkpointsOn; simpl.
  fold (checkpointsOn s). destruct (checkpointsOn s); [|done]. split; [|done].
  intros k v Hk Hk0; simpl in Hk.
  apply lookup_singleton_Some in Hk. lia.
Qed.

Lemma withDefaults_idem (o : EventStoreOptions) :
  withDefaults (withDefaults o) = withDefaults o.
Proof. done. Qed.

Lemma new_inv o : inv o [] (new o).
Proof.
  split; [done|]. split; [done|]. unfold coherent.
  destruct (checkpointsOn (new o)); [|done]. split; [|done].
  intros k v Hk Hk0; simpl in Hk.
  destruct (truthyB (enableCheckpoints o)).
  - apply lookup_singleton_Some in Hk. lia.
  - by rewrite lookup_empty in Hk.
Qed.

Lemma forkBase_inv o h s : inv o h s → inv o [] (forkBase s).
Proof.
  intros (Ho & Hi & Hco).
  split; [simpl; by rewrite Ho|].
  split; [unfold indexInRange, forkBase, len; simpl; lia|].
  unfold coherent. destruct (checkpointsOn (forkBase s)); [|done]. split; [|done].
  intros k v Hk Hk0; simpl in Hk.
  destruct (truthyB (enableCheckpoints (options s))).
  - apply lookup_singleton_Some in Hk. lia.
  - by rewrite lookup_empty in Hk.
Qed.

Lemma fork_inv o h s (forked : Store) :
  inv o h s → fork s = Ok forked → inv o [] forked.
Proof.
  intros Hinv. pose proof (forkBase_inv o h s Hinv) as Hb.
  unfold fork. fold (forkBase s).
  destruct (checkpointsOn s && truthyN (checkpointInterval (options s))) eqn:Hc;
    [|by intros [= <-]].
  apply andb_prop in Hc as [_ Ht].
  unfold mbind, M_bind, modify.
  destruct (rebuildFrom _ _ _ _) as [f' [[]|?]] eqn:Hf; [|done].
  intros [= <-]. replace f' with (f', Ok tt : Result unit).1 by done.
  rewrite <- Hf. apply rebuildFrom_inv.
  - destruct Hb as (Hbo & Hbi & Hbc). split; [done|]. split; [done|].
    unfold coherent in *.
    change (checkpointsOn (set_checkpoints _ (forkBase s)))
      with (checkpointsOn (forkBase s)).
    destruct (checkpointsOn (forkBase s)); [|done]. split; [|done].
    intros k v Hk Hk0. simpl in Hk. rewrite lookup_insert_ne in Hk by lia.
    destruct Hbc as [Hbc _]. by apply Hbc.
  - unfold truthyN, numOf in *. destruct (checkpointInterval (options s)); [|done].
    apply negb_true_iff, N.eqb_neq in Ht. lia.
  - unfold numOf. destruct (checkpointInterval (options s)); lia.
Qed.


(** ** Reachable stores *)

Lemma exec_inv o h s (op : Op P S V) :
  inv o h s → opInRange op →
  ∃ h', inv o h' (exec op s) ∧ (compacts op s = false → h = [] → h' = []).
Proof.
  intros Hinv Hr. destruct op as [ep n1 n2| | |i|t|snapshot| |k v|]; simpl.
  - destruct (append_inv o h s ep n1 n2 Hinv) as (h' & H' & Hh).
    exists h'. split; [done|]. intros Hc ->. rewrite Hh by done.
    unfold historyAfterTruncation. by destruct (index s <? 0).
  - exists h. split; [by apply undo_inv|done].
  - exists h. split; [by apply redo_inv|done].
  - exists h. split; [by apply navigate_inv|done].
  - exists h. split; [|done]. rewrite navigateToTime_store. by apply navigate_inv.
  - exists (historyAfterRestore h snapshot). split; [by apply restore_inv|].
    intros _ ->. unfold historyAfterRestore. by destruct (snap_events snapshot).
  - exists []. split; [by apply (clear_inv o h)|done].
  - exists h. split; [|done]. by apply inv_set_metadata.
  - destruct (fork s) as [forked|f] eqn:Hf.
    + exists []. split; [by apply (fork_inv o h s)|done].
    + by exists h.
Qed.

(** Every reachable store satisfies the invariant for some list of dropped
    events, the empty list if no append installed a seed checkpoint. *)
Lemma reachable_inv (b : bool) o s :
  reachable b o s → ∃ h, inv o h s ∧ (b = false → h = []).
Proof.
  induction 1 as [|s op Hreach (h & Hinv & Hh) Hop Hc].
  - exists []. split; [apply new_inv|done].
  - destruct (exec_inv o h s op Hinv Hop) as (h' & Hinv' & Hh').
    exists h'. split; [done|]. intros ->. apply Hh'; auto.
Qed.

(** Spec invariant 1 holds in every reachable store. *)
Lemma reachable_indexInRange (b : bool) o s : reachable b o s → indexInRange s.
Proof. intros (h & (_ & Hi & _) & _)%reachable_inv. done. Qed.

Lemma reachable_options (b : bool) o s :
  reachable b o s → options s = withDefaults o.
Proof. intros (h & (Ho & _ & _) & _)%reachable_inv. done. Qed.

(** With checkpointing switched off no append installs a seed checkpoint. *)
Lemma reachable_checkpoints_off o s :
  enableCheckpoints o = Some false → reachable true o s → reachable false o s.
Proof.
  intros Hoff. induction 1 as [|s op Hreach IH Hop _]; [constructor|].
  constructor; [done|done|]. intros _.
  destruct op; try done. simpl.
  unfold checkpointsOn. rewrite (reachable_options true o s Hreach); simpl.
  rewrite Hoff. simpl. apply andb_false_r.
Qed.

(** C1 (amended).  In every store reached without an eviction that installs
    a seed checkpoint, and so in every reachable store when checkpointing is
    disabled, projecting at a position [p] in [-1 .. log.length - 1] through
    the nearest checkpoint yields the fold of the reducer over the log
    positions [0 .. p] from the initial state, whatever the interval. *)
Theorem C1_checkpoint_projection_is_full_fold o s (p : Z) :
  reachable false o s →
  -1 ≤ p ≤ len s - 1 →
  projectAtIndex p s = reduce (slice 0 (p + 1) (events s)) initialState.
Proof.
  intros (h & (_ & _ & Hco) & Hh)%reachable_inv [Hlo Hhi].
  rewrite Hh in Hco by done. rewrite slice_prefix by done.
  destruct (decide (p = -1)) as [->|Hne].
  - by rewrite projectAtIndex_negative.
  - by rewrite (projectAtIndex_coherent [] s) by (done || lia).
Qed.


(** ** Eviction keeps the projections *)

Lemma finishAppend_events (e : Event P) s :
  events (finishAppend e s).1 = events s.
Proof. by destruct (finishAppend_store e s) as [->|(st & _ & _ & ->)]. Qed.

Lemma finishAppend_index (e : Event P) s :
  index (finishAppend e s).1 = index s.
Proof. by destruct (finishAppend_store e s) as [->|(st & _ & _ & ->)]. Qed.

Lemma finishAppend_checkpoints (e : Event P) s (k : Z) :
  k ≠ index s → checkpoints (finishAppend e s).1 !! k = checkpoints s !! k.
Proof.
  intros Hk. destruct (finishAppend_store e s) as [->|(st & _ & _ & ->)]; [done|].
  simpl. by rewrite lookup_insert_ne.
Qed.

(** The general half of C2, for a store that satisfies the invariant. *)
Lemma append_eviction_preserves o h s (ep : P) (now_id now_ts : Z) (st : S) :
  inv o h s →
  checkpointsOn s = true →
  overflows (truncated s) = true →
  projectAtIndex (len (truncated s) / 2) (truncated s) = Some st →
  let s1 := truncated s in
  let e := makeEvent ep now_id now_ts (idCounter s1) in
  let s' := (append ep now_id now_ts s).1 in
  events s' = drop (Z.to_nat (len s1 / 2)) (events s1) ++ [e]
  ∧ checkpoints s' !! 0 = Some st
  ∧ ∀ q, 0 ≤ q →
      projectAtIndex q s' = projectAtIndex (len s1 / 2 + q) (pushEvent e s1).
Proof.
  intros Hinv Hon Hov Hst. cbv zeta. rewrite append_eq; simpl.
  destruct (truncated_inv o h s Hinv) as [H1 Hend].
  set (s1 := truncated s) in *. set (h1 := historyAfterTruncation h s) in *.
  set (e := makeEvent ep now_id now_ts (idCounter s1)).
  set (s2 := set_idCounter (idCounter s1 + 1)%N s1).
  assert (inv o h1 s2) as H2 by done.
  change (overflows s2) with (overflows s1). rewrite Hov.
  pose proof (overflows_nonempty s1 Hov) as Hpos.
  assert (0 ≤ len s1 / 2 < len s1) as Hmid.
  { split; [apply Z.div_pos; lia|apply Z.div_lt_upper_bound; lia]. }
  pose proof (evict_eq s2) as He.
  change (checkpointsOn s2) with (checkpointsOn s1) in He.
  unfold s1 in He at 1. rewrite truncated_checkpointsOn, Hon in He.
  change (projectAtIndex (len s2 / 2) s2)
    with (projectAtIndex (len s1 / 2) s1) in He.
  fold s1 in He. rewrite Hst in He. rewrite He.
  set (s3 := evictedWith {[0 := st]} s2).
  pose proof (evict_inv o h1 s2 s3 (Ok tt) H2 Hpos He) as (H3 & Hend3 & Hpos3).
  destruct (pushEvent_inv o _ s3 e H3 Hend3) as (H4 & Hend4 & Hpos4).
  pose proof (finishAppend_inv o _ _ e H4 Hpos4) as (_ & _ & H5).
  assert (index (pushEvent e s3) = index s3 + 1) as Hidx by done.
  split_and!.
  - rewrite finishAppend_events. unfold pushEvent; simpl.
    by rewrite (evictedWith_events {[0 := st]} s2).
  - rewrite finishAppend_checkpoints by lia. simpl. apply lookup_singleton_eq.
  - intros q Hq.
    destruct (pushEvent_inv o h1 s1 e H1 Hend) as ((_ & _ & Hco1) & _ & _).
    rewrite (projectAtIndex_coherent _ _ q H5 Hq).
    rewrite (projectAtIndex_coherent _ _ _ Hco1) by lia.
    unfold historyAfterEviction. change (checkpointsOn s2) with (checkpointsOn s1).
    unfold s1 at 1. rewrite truncated_checkpointsOn, Hon. fold s1.
    rewrite <- app_assoc. do 2 f_equal.
    unfold upTo. rewrite finishAppend_events. unfold pushEvent; simpl.
    rewrite (evictedWith_events {[0 := st]} s2).
    change (events s2) with (events s1). change (len s2) with (len s1).
    replace (Z.to_nat (len s1 / 2 + q + 1))
      with (Z.to_nat (len s1 / 2) + Z.to_nat (q + 1))%nat by lia.
    rewrite <- take_take_drop. f_equal.
    + rewrite take_app_le; [done|]. unfold len in *. lia.
    + rewrite drop_app_le; [done|]. unfold len in *. lia.
Qed.


(** ** Snapshot and restore *)

Lemma rebuildFrom_fields (interval : Z) (fuel : nat) :
  0 ≤ interval →
  ∀ (i : Z) s, 0 ≤ i →
    let r := (rebuildFrom fuel interval i s).1 in
    events r = events s ∧ index r = index s ∧ metadata r = metadata s
    ∧ options r = options s
    ∧ checkpoints r !! (-1) = checkpoints s !! (-1).
Proof.
  intros Hint. induction fuel as [|fuel IH]; intros i s Hi; [done|]. cbv zeta.
  rewrite rebuildFrom_S. destruct (i <=? index s); [|done].
  destruct (projectAtIndex i s) as [st|]; [|done].
  destruct (IH (i + interval) (setCheckpoint i st s)) as (? & ? & ? & ? & Hc); [lia|].
  split_and!; try done. rewrite Hc. simpl. apply lookup_insert_ne. lia.
Qed.

Lemma rebuildFrom_initial (interval : Z) (fuel : nat) (i : Z) s :
  0 ≤ interval → 0 ≤ i →
  checkpoints (rebuildFrom fuel interval i s).1 !! (-1) = checkpoints s !! (-1).
Proof. intros Hint Hi. by apply rebuildFrom_fields. Qed.

Lemma truthyN_numOf (n : option N) : truthyN n = true → 1 ≤ numOf n.
Proof.
  unfold truthyN, numOf. destruct n as [n|]; [|done].
  intros Ht. apply negb_true_iff, N.eqb_neq in Ht. lia.
Qed.

Lemma restore_fields (snapshot : Snapshot P S V) (evs : list (Event P)) s :
  snap_events snapshot = Some evs →
  let s' := (restore snapshot s).1 in
  events s' = evs ∧ index s' = snap_index snapshot
  ∧ metadata s' = default ∅ (snap_metadata snapshot)
  ∧ options s' = options s
  ∧ (checkpointsOn s = true → checkpoints s' !! (-1) = Some initialState).
Proof.
  intros Hevs. cbv zeta. rewrite restore_eq, Hevs. cbv zeta.
  destruct (checkpointsOn s); [|done].
  destruct (truthyN (checkpointInterval (options s))) eqn:Ht.
  - unfold rebuildCheckpoints, mbind, M_bind, get.
    set (s1 := setCheckpoint (-1) initialState (replacedBy evs snapshot s)).
    apply truthyN_numOf in Ht. change (options s1) with (options s).
    destruct (rebuildFrom_fields (numOf (checkpointInterval (options s)))
      (Z.to_nat (index s1 + 1)) ltac:(lia)
      (numOf (checkpointInterval (options s)) - 1) s1 ltac:(lia))
      as (-> & -> & -> & -> & ->).
    split_and!; first [done | intros _; simpl; apply lookup_insert_eq].
  - split_and!; first [done | intros _; simpl; apply lookup_insert_eq].
Qed.

Lemma snapshot_eq (now : Z) s :
  snapshot now s =
  match projectAtIndex (index s) s with
  | Some st =>
      (s, Ok {| snap_events := Some (events s); snap_index := index s;
                snap_state := Some st; snap_timestamp := now;
                snap_metadata := Some (metadata s) |})
  | None => (s, Throw ReducerFault)
  end.
Proof.
  unfold snapshot, project, projectAtIndexM, mbind, M_bind, get, mret, M_ret.
  by destruct (projectAtIndex (index s) s).
Qed.

(** Where the round trip of C3 does hold: the source store was reached
    without an eviction that installs a seed checkpoint. *)
Lemma snapshot_restore_uncompacted o s (now : Z) (snap : Snapshot P S V) :
  reachable false o s →
  (snapshot now s).2 = Ok snap →
  let restored := (restore snap (new o)).1 in
  Some (getEvents restored) = snap_events snap
  ∧ projectAtIndex (index restored) restored = snap_state snap.
Proof.
  intros Hreach Hsnap. cbv zeta.
  destruct (reachable_inv false o s Hreach) as (h & (Ho & Hi & Hco) & Hh).
  rewrite Hh in Hco by done.
  rewrite snapshot_eq in Hsnap.
  destruct (projectAtIndex (index s) s) as [st|] eqn:Hst; [|done].
  injection Hsnap as <-.
  set (snap := {| snap_events := Some (events s); snap_index := index s;
                  snap_state := Some st; snap_timestamp := now;
                  snap_metadata := Some (metadata s) |}).
  destruct (restore_fields snap (events s) (new o) eq_refl) as (He & Hidx & _).
  simpl in Hidx. split; [unfold getEvents; by rewrite He|]. simpl.
  pose proof (restore_inv o [] snap (new o) (new_inv o)) as (_ & _ & Hco').
  { intros evs [= <-]. exact Hi. }
  unfold historyAfterRestore in Hco'. simpl in Hco'.
  rewrite Hidx. rewrite <- Hst.
  destruct (decide (index s < 0)) as [Hneg|Hpos].
  - by rewrite !projectAtIndex_negative.
  - rewrite (projectAtIndex_coherent [] _ _ Hco') by lia.
    rewrite (projectAtIndex_coherent [] _ _ Hco) by lia.
    unfold upTo. by rewrite He.
Qed.


(** ** Faults of the eviction and of the last steps of append *)

Lemma truncated_idCounter s : idCounter (truncated s) = idCounter s.
Proof. unfold truncated. by destruct (index s <? len s - 1). Qed.

Lemma evict_result s s' (r : Result unit) :
  evict s = (s', r) →
  match r with
  | Ok _ => ∃ cps, s' = evictedWith cps s
  | Throw f => s' = s ∧ f = ReducerFault
  end.
Proof.
  rewrite evict_eq. destruct (checkpointsOn s).
  - destruct (projectAtIndex _ _) as [st|]; intros [= <- <-]; [by eexists|done].
  - intros [= <- <-]. by eexists.
Qed.

Lemma finishAppend_fault (e : Event P) s (f : Fault) :
  (finishAppend e s).2 = Throw f → f = ReducerFault.
Proof.
  unfold finishAppend. destruct (intervalReached s).
  - destruct (projectAtIndex (index s) s); [|by intros [= <-]].
    destruct (projectAtIndex _ _); [done|by intros [= <-]].
  - destruct (projectAtIndex (index s) s); [done|by intros [= <-]].
Qed.


(** ** The initial checkpoint *)

Lemma fork_initial_checkpoint s (forked : Store) :
  checkpointsOn s = true → fork s = Ok forked →
  checkpoints forked !! (-1) = Some initialState.
Proof.
  intros Hon. unfold fork. fold (forkBase s).
  assert (checkpoints (forkBase s) !! (-1) = Some initialState) as Hb.
  { unfold forkBase; simpl. unfold checkpointsOn in Hon. rewrite Hon.
    apply lookup_singleton_eq. }
  rewrite Hon. simpl.
  destruct (truthyN (checkpointInterval (options s))) eqn:Ht; [|by intros [= <-]].
  apply truthyN_numOf in Ht. unfold mbind, M_bind, modify.
  destruct (rebuildFrom _ _ _ _) as [f' [[]|?]] eqn:Hf; [|done].
  intros [= <-]. replace f' with (f', Ok tt : Result unit).1 by done.
  rewrite <- Hf.
  etrans; [apply rebuildFrom_initial; lia|].
  simpl. apply lookup_insert_eq.
Qed.

Lemma exec_initial_checkpoint s (op : Op P S V) :
  -1 ≤ index s →
  checkpointsOn s = true →
  compacts op s = false →
  checkpoints s !! (-1) = Some initialState →
  checkpoints (exec op s) !! (-1) = Some initialState.
Proof.
  intros Hlo Hon Hc Hcp.
  destruct op as [ep n1 n2| | |i|t|snapshot| |k v|]; simpl.
  - simpl in Hc. rewrite Hon, andb_true_r in Hc.
    rewrite append_eq; cbv zeta.
    change (overflows (set_idCounter _ (truncated s))) with (overflows (truncated s)).
    rewrite Hc. rewrite finishAppend_checkpoints.
    + change (checkpoints (pushEvent _ _)) with (checkpoints (truncated s)).
      by rewrite truncated_checkpoints.
    + change (index (pushEvent _ _)) with (index (truncated s) + 1).
      rewrite truncated_index. lia.
  - rewrite undo_store. by destruct (0 <=? index s).
  - rewrite redo_store. by destruct (index s <? len s - 1).
  - by rewrite navigate_store.
  - by rewrite navigateToTime_store, navigate_store.
  - destruct (snap_events snapshot) as [evs|] eqn:Hevs.
    + by apply (restore_fields snapshot evs s Hevs).
    + by rewrite restore_eq, Hevs.
  - rewrite clear_eq; simpl. rewrite Hon. apply lookup_singleton_eq.
  - done.
  - destruct (fork s) as [forked|f] eqn:Hf; [|done].
    by apply (fork_initial_checkpoint s).
Qed.


(** ** Navigation by time *)

Lemma navigate_index s (i : Z) :
  index (navigate i s).1 = Z.max (-1) (Z.min i (len s - 1)).
Proof. by rewrite navigate_store. Qed.

(** The scan stops at the first event later than [t]: it returns the last
    position of the longest initial run of events not later than [t]. *)
Lemma scanTime_run (t : Z) (evs : list (Event P)) :
  ∀ i0 : Z,
    let r := scanTime t evs i0 (i0 - 1) in
    i0 - 1 ≤ r ≤ i0 + Z.of_nat (length evs) - 1
    ∧ (∀ (j : nat) e, Z.of_nat j ≤ r - i0 → evs !! j = Some e → ev_timestamp e ≤ t)
    ∧ (∀ e, evs !! Z.to_nat (r - i0 + 1) = Some e → t < ev_timestamp e).
Proof.
  induction evs as [|e evs IH]; intros i0; cbv zeta; simpl.
  - split; [lia|]. split; intros; by simplify_eq.
  - destruct (Z.leb_spec (ev_timestamp e) t) as [Hle|Hgt].
    + specialize (IH (i0 + 1)). cbv zeta in IH.
      replace (i0 + 1 - 1) with i0 in IH by lia.
      destruct IH as (Hr & Hrun & Hstop). split; [lia|]. split.
      * intros [|j] e' Hj He'; simpl in He'; [by simplify_eq|].
        apply (Hrun j e'); [lia|done].
      * intros e'.
        replace (Z.to_nat (scanTime t evs (i0 + 1) i0 - i0 + 1))
          with (Datatypes.S (Z.to_nat (scanTime t evs (i0 + 1) i0 - (i0 + 1) + 1)))
          by lia.
        simpl. apply Hstop.
    + split; [lia|]. split.
      * intros j e' Hj. lia.
      * replace (Z.to_nat (i0 - 1 - i0 + 1)) with 0%nat by lia. simpl.
        intros e' [= <-]. lia.
Qed.

Lemma spec_lastAtOrBefore_later (t : Z) (evs : list (Event P)) :
  (∀ e, e ∈ evs → t < ev_timestamp e) →
  ∀ i best : Z, spec_lastAtOrBefore t evs i best = best.
Proof.
  induction evs as [|e evs IH]; intros Hall i best; simpl; [done|].
  destruct (Z.leb_spec (ev_timestamp e) t) as [Hle|Hgt].
  - assert (t < ev_timestamp e) by (apply Hall, elem_of_cons; by left). lia.
  - apply IH. intros e' He'. apply Hall, elem_of_cons. by right.
Qed.

Lemma scanTime_nondecreasing (t : Z) (evs : list (Event P)) :
  nondecreasing evs →
  ∀ i0 : Z, scanTime t evs i0 (i0 - 1) = spec_lastAtOrBefore t evs i0 (i0 - 1).
Proof.
  induction evs as [|e evs IH]; intros Hmono i0; simpl; [done|].
  destruct Hmono as [Hhead Htail].
  destruct (Z.leb_spec (ev_timestamp e) t) as [Hle|Hgt].
  - specialize (IH Htail (i0 + 1)). by replace (i0 + 1 - 1) with i0 in IH by lia.
  - rewrite spec_lastAtOrBefore_later; [done|].
    intros e' He'. specialize (Hhead e' He'). lia.
Qed.

(** C7 (amended).  [navigateToTime(t)] moves the cursor to the last position
    of the longest initial run of events with a timestamp [<= t] ([-1] if the
    first event is later): every event up to the new cursor is not later
    than [t] and the event after it, if any, is later.  When the timestamps
    are non-decreasing in log order this is the greatest log position whose
    event has a timestamp [<= t], or [-1] if there is none. *)
Theorem C7_navigateToTime_cursor s (t : Z) :
  let i := index (navigateToTime t s).1 in
  (-1 ≤ i ≤ len s - 1
   ∧ (∀ (j : nat) e, Z.of_nat j ≤ i → events s !! j = Some e → ev_timestamp e ≤ t)
   ∧ (∀ e, events s !! Z.to_nat (i + 1) = Some e → t < ev_timestamp e))
  ∧ (nondecreasing (events s) → i = spec_navigateToTime_target t s).
Proof.
  cbv zeta. rewrite navigateToTime_store, navigate_index.
  pose proof (scanTime_run t (events s) 0) as Hrun. cbv zeta in Hrun.
  change (0 - 1) with (-1) in Hrun. destruct Hrun as (Hr & Hrun & Hstop).
  set (r := scanTime t (events s) 0 (-1)) in *.
  replace (Z.max (-1) (Z.min r (len s - 1))) with r by (unfold len; lia).
  split.
  - split; [unfold len; lia|]. split.
    + intros j e Hj. apply Hrun. lia.
    + intros e. replace (r - 0 + 1) with (r + 1) in Hstop by lia. apply Hstop.
  - intros Hmono. apply (scanTime_nondecreasing t (events s) Hmono 0).
Qed.


(** ** Restore of a malformed snapshot *)

Lemma rebuildFrom_total (interval : Z) (fuel : nat) :
  total → ∀ (i : Z) s, (rebuildFrom fuel interval i s).2 = Ok tt.
Proof.
  intros Ht. induction fuel as [|fuel IH]; intros i s; [done|].
  rewrite rebuildFrom_S. destruct (i <=? index s); [|done].
  destruct (projectAtIndex_total s i Ht) as [st ->]. apply IH.
Qed.

(** C8 (amended).  [restore] validates nothing.  A snapshot whose [events]
    field is missing or not iterable makes it fail on its first statement,
    with the store unchanged; any other snapshot, whatever its [index] and
    whether or not it has a [state], replaces the events, the index and the
    metadata of the store, and the call succeeds when the reducer does not
    throw. *)
Theorem C8_restore_validates_nothing (snapshot : Snapshot P S V) s :
  (snap_events snapshot = None → restore snapshot s = (s, Throw TypeError))
  ∧ (∀ evs, snap_events snapshot = Some evs →
       let s' := (restore snapshot s).1 in
       events s' = evs
       ∧ index s' = snap_index snapshot
       ∧ metadata s' = default ∅ (snap_metadata snapshot)
       ∧ (total → (restore snapshot s).2 = Ok tt)).
Proof.
  split.
  - intros Hnone. by rewrite restore_eq, Hnone.
  - intros evs Hevs. cbv zeta.
    destruct (restore_fields snapshot evs s Hevs) as (He & Hi & Hm & _).
    split_and!; try done. intros Ht. rewrite restore_eq, Hevs. cbv zeta.
    destruct (checkpointsOn s); [|done].
    destruct (truthyN (checkpointInterval (options s))); [|done].
    unfold rebuildCheckpoints, mbind, M_bind, get. by apply rebuildFrom_total.
Qed.

(** ** Undo, redo, clear *)

(** C9.  With a reducer that does not throw, in every store whose cursor is
    on an event ([0 <= index <= log.length - 1]) [undo()] and then [redo()]
    both return [true], and the store, hence its projection, is the one
    before the [undo()]. *)
Theorem C9_undo_then_redo s :
  total →
  0 ≤ index s ≤ len s - 1 →
  ∃ s1 s2,
    undo s = (s1, Ok true)
    ∧ redo s1 = (s2, Ok true)
    ∧ (project s2).2 = (project s).2
    ∧ s2 = s.
Proof.
  intros Ht [Hlo Hhi].
  exists (set_index (index s - 1) s), s.
  assert (undo s = (set_index (index s - 1) s, Ok true)) as Hundo.
  { unfold undo, project, projectAtIndexM, mbind, M_bind, get, modify, mret, M_ret.
    destruct (Z.leb_spec 0 (index s)); [|lia].
    by destruct (projectAtIndex_total (set_index (index s - 1) s)
      (index (set_index (index s - 1) s)) Ht) as [st ->]. }
  split; [done|]. split; [|done].
  unfold redo, project, projectAtIndexM, mbind, M_bind, get, modify, mret, M_ret.
  change (index (set_index (index s - 1) s)) with (index s - 1).
  change (len (set_index (index s - 1) s)) with (len s).
  destruct (Z.ltb_spec (index s - 1) (len s - 1)); [|lia].
  assert (set_index (index s - 1 + 1) (set_index (index s - 1) s) = s) as ->.
  { destruct s as [evs i cps c m o]. unfold set_index; simpl. f_equal. lia. }
  by destruct (projectAtIndex_total s (index s) Ht) as [st ->].
Qed.



(** * Further properties of the store *)

(** ** Cursor and navigation *)

(** X1.  Spec invariant 1: after construction and after every public
    operation (restore being given snapshots whose index is in range) the
    cursor lies in [-1 .. log.length - 1], also when the operation threw. *)
Theorem X1_cursor_in_range (b : bool) o s :
  reachable b o s → -1 ≤ index s ≤ len s - 1.
Proof. intros Hreach. by apply (reachable_indexInRange b o). Qed.

(** X2.  [navigate] clamps: whatever the store and the target, after
    [navigate(i)] the cursor is in [-1 .. log.length - 1]; a second
    [navigate(i)] changes nothing and computes no projection, so it returns
    normally even where the reducer would throw. *)
Theorem X2_navigate_clamps_and_is_idempotent s (i : Z) :
  indexInRange (navigate i s).1
  ∧ navigate i (navigate i s).1 = ((navigate i s).1, Ok tt).
Proof.
  rewrite navigate_store. split.
  - unfold indexInRange. simpl. change (len (set_index _ s)) with (len s).
    assert (0 ≤ len s) by (unfold len; lia). lia.
  - unfold navigate, mbind, M_bind, get, modify, when, mret, M_ret. simpl.
    change (len (set_index _ s)) with (len s).
    by rewrite Z.eqb_refl.
Qed.

(** X3.  Undo, redo, navigate and navigateToTime only move the cursor: the
    log, the checkpoints, the metadata, the id counter and the options are
    those of the store before the call, also when the call threw. *)
Theorem X3_navigation_moves_only_the_cursor s (op : Op P S V) :
  isNavigation op = true →
  events (exec op s) = events s
  ∧ checkpoints (exec op s) = checkpoints s
  ∧ metadata (exec op s) = metadata s
  ∧ idCounter (exec op s) = idCounter s
  ∧ options (exec op s) = options s.
Proof.
  destruct op; try done; intros _; simpl.
  - rewrite undo_store. by destruct (0 <=? index s).
  - rewrite redo_store. by destruct (index s <? len s - 1).
  - by rewrite navigate_store.
  - by rewrite navigateToTime_store, navigate_store.
Qed.

(** X4.  Redo then undo is the identity: with a reducer that does not
    throw, in a store with [-1 <= index < log.length - 1] both calls return
    [true] and the store after them is the store before. *)
Theorem X4_redo_then_undo s :
  total →
  -1 ≤ index s →
  index s < len s - 1 →
  ∃ s1, redo s = (s1, Ok true) ∧ undo s1 = (s, Ok true).
Proof.
  intros Ht Hlo Hhi. exists (set_index (index s + 1) s). split.
  - unfold redo, project, projectAtIndexM, mbind, M_bind, get, modify, mret, M_ret.
    destruct (Z.ltb_spec (index s) (len s - 1)); [|lia].
    by destruct (projectAtIndex_total (set_index (index s + 1) s)
      (index (set_index (index s + 1) s)) Ht) as [st ->].
  - unfold undo, project, projectAtIndexM, mbind, M_bind, get, modify, mret, M_ret.
    change (index (set_index (index s + 1) s)) with (index s + 1).
    destruct (Z.leb_spec 0 (index s + 1)); [|lia].
    assert (set_index (index s + 1 - 1) (set_index (index s + 1) s) = s) as ->.
    { destruct s as [evs i cps c m o]. unfold set_index; simpl. f_equal. lia. }
    by destruct (projectAtIndex_total s (index s) Ht) as [st ->].
Qed.

(** X5.  [canUndo] and [canRedo] predict [undo] and [redo]: where they are
    false the call returns [false] and leaves the store as it is (no
    projection is computed), and with a reducer that does not throw the
    value returned is always the value of the predicate before the call. *)
Theorem X5_canUndo_canRedo_predict s :
  (canUndo s = false → undo s = (s, Ok false))
  ∧ (canRedo s = false → redo s = (s, Ok false))
  ∧ (total → (undo s).2 = Ok (canUndo s) ∧ (redo s).2 = Ok (canRedo s)).
Proof.
  unfold canUndo, canRedo. split_and!.
  - intros Hf. unfold undo, mbind, M_bind, get. simpl. by rewrite Hf.
  - intros Hf. unfold redo, mbind, M_bind, get. simpl. by rewrite Hf.
  - intros Ht. split.
    + unfold undo, project, projectAtIndexM, mbind, M_bind, get, modify, mret, M_ret.
      destruct (0 <=? index s); [|done].
      by destruct (projectAtIndex_total (set_index (index s - 1) s)
        (index (set_index (index s - 1) s)) Ht) as [st ->].
    + unfold redo, project, projectAtIndexM, mbind, M_bind, get, modify, mret, M_ret.
      destruct (index s <? len s - 1); [|done].
      by destruct (projectAtIndex_total (set_index (index s + 1) s)
        (index (set_index (index s + 1) s)) Ht) as [st ->].
Qed.

Lemma projectAtIndex_at_checkpoint s (k : Z) (v : S) :
  checkpointsOn s = true →
  0 ≤ k →
  checkpoints s !! k = Some v →
  projectAtIndex k s = Some v.
Proof.
  intros Hon Hk Hv. unfold projectAtIndex.
  destruct (Z.ltb_spec k 0); [lia|]. rewrite Hon.
  pose proof (nearestCheckpoint_spec k (checkpoints s)) as Hn.
  destruct (nearestCheckpoint k (checkpoints s)) as [k' v']; simpl in Hn.
  destruct Hn as [[_ Hnone]|(Hk' & Hb & Hmax)].
  - specialize (Hnone k (ex_intro _ v Hv)). lia.
  - specialize (Hmax k (ex_intro _ v Hv)).
    assert (k' = k) as -> by lia. rewrite Hv in Hk'. injection Hk' as <-.
    rewrite slice_between by lia. rewrite drop_ge; [done|].
    rewrite length_take. lia.
Qed.

(** X6.  Projecting at a position that carries a checkpoint returns the
    state of that checkpoint, and the reducer is not called: with
    checkpointing on this holds in every store and for every reducer. *)
Theorem X6_projection_at_a_checkpoint s (k : Z) (v : S) :
  checkpointsOn s = true →
  0 ≤ k →
  checkpoints s !! k = Some v →
  projectAtIndex k s = Some v.
Proof. apply projectAtIndex_at_checkpoint. Qed.


(** ** Append *)

Lemma reduce_prefix_Some l1 l2 (a v : S) :
  reduce (l1 ++ l2) a = Some v → is_Some (reduce l1 a).
Proof.
  rewrite reduce_app. destruct (reduce l1 a); [by eexists|done].
Qed.

Lemma finishAppend_Ok (e e' : Event P) s :
  (finishAppend e s).2 = Ok e' → e' = e.
Proof.
  unfold finishAppend. destruct (intervalReached s).
  - destruct (projectAtIndex (index s) s); [|done].
    destruct (projectAtIndex _ _); [by intros [= <-]|done].
  - destruct (projectAtIndex (index s) s); [by intros [= <-]|done].
Qed.

(** Pushing an event whose effect on the projected state is known. *)
Lemma finishAppend_projection o h s (e : Event P) (st st' : S) :
  inv o h s → index s = len s - 1 →
  reduce (h ++ events s) initialState = Some st →
  reducer st e = Some st' →
  (finishAppend e (pushEvent e s)).2 = Ok e
  ∧ projectAtIndex (index (finishAppend e (pushEvent e s)).1)
      (finishAppend e (pushEvent e s)).1 = Some st'.
Proof.
  intros Hinv Hend Hst Hst'.
  destruct (pushEvent_inv o h s e Hinv Hend) as (H4 & Hend4 & Hpos4).
  set (s4 := pushEvent e s) in *.
  assert (∀ s5, inv o h s5 → events s5 = events s4 → index s5 = index s4 →
            projectAtIndex (index s5) s5 = Some st') as Hproj.
  { intros s5 (_ & _ & Hco5) He5 Hi5.
    rewrite (projectAtIndex_coherent h s5) by (done || lia).
    unfold upTo. rewrite He5, Hi5, take_ge.
    - unfold s4, pushEvent; simpl. rewrite app_assoc, reduce_app, Hst. simpl.
      by rewrite Hst'.
    - unfold len in Hend4. lia. }
  pose proof (Hproj s4 H4 eq_refl eq_refl) as Hp4.
  unfold finishAppend. destruct (intervalReached s4).
  - rewrite Hp4.
    assert (projectAtIndex (index s4) (setCheckpoint (index s4) st' s4) = Some st')
      as Hp5.
    { apply (Hproj (setCheckpoint (index s4) st' s4)); [|done|done].
      apply setCheckpoint_inv; [done|lia|done]. }
    rewrite Hp5. by split.
  - rewrite Hp4. by split.
Qed.

Lemma append_projection o h s (ep : P) (now_id now_ts : Z) (st st' : S) :
  inv o h s →
  checkpointsOn s = true ∨ overflows (truncated s) = false →
  projectAtIndex (index s) s = Some st →
  reducer st (makeEvent ep now_id now_ts (idCounter s)) = Some st' →
  (append ep now_id now_ts s).2 = Ok (makeEvent ep now_id now_ts (idCounter s))
  ∧ projectAtIndex (index (append ep now_id now_ts s).1)
      (append ep now_id now_ts s).1 = Some st'.
Proof.
  intros Hinv Hcase Hst Hst'.
  destruct (truncated_inv o h s Hinv) as [H1 Hend].
  pose proof Hinv as (Ho & Hi & Hco).
  assert (reduce (historyAfterTruncation h s ++ events (truncated s)) initialState
          = Some st) as Hfold.
  { rewrite truncated_events by apply Hi. unfold historyAfterTruncation.
    destruct (Z.ltb_spec (index s) 0) as [Hneg|Hpos].
    - rewrite projectAtIndex_negative in Hst by done. injection Hst as <-.
      replace (Z.to_nat (index s + 1)) with 0%nat by lia. done.
    - by rewrite (projectAtIndex_coherent h s) in Hst by done. }
  rewrite append_eq; cbv zeta. rewrite truncated_idCounter.
  set (s1 := truncated s) in *. set (h1 := historyAfterTruncation h s) in *.
  set (e := makeEvent ep now_id now_ts (idCounter s)) in *.
  set (s2 := set_idCounter (idCounter s + 1)%N s1).
  assert (inv o h1 s2) as H2 by done.
  change (overflows s2) with (overflows s1).
  destruct (overflows s1) eqn:Hov.
  - destruct Hcase as [Hon|?]; [|done].
    pose proof (overflows_nonempty s1 Hov) as Hpos.
    assert (0 ≤ len s1 / 2 < len s1) as Hmid.
    { split; [apply Z.div_pos; lia|apply Z.div_lt_upper_bound; lia]. }
    destruct H1 as (Ho1 & Hi1 & Hco1).
    assert (is_Some (projectAtIndex (len s1 / 2) s1)) as [stm Hstm].
    { rewrite (projectAtIndex_coherent h1 s1) by (done || lia).
      apply (reduce_prefix_Some _
        (drop (Z.to_nat (len s1 / 2 + 1)) (events s1)) _ st).
      unfold upTo. by rewrite <- app_assoc, take_drop. }
    pose proof (evict_eq s2) as He.
    change (checkpointsOn s2) with (checkpointsOn s1) in He.
    unfold s1 in He at 1. rewrite truncated_checkpointsOn, Hon in He.
    change (projectAtIndex (len s2 / 2) s2)
      with (projectAtIndex (len s1 / 2) s1) in He.
    rewrite Hstm in He. rewrite He.
    pose proof (evict_inv o h1 s2 _ (Ok tt) H2 Hpos He) as (H3 & Hend3 & _).
    apply (finishAppend_projection o _ _ e st st' H3 Hend3); [|done].
    unfold historyAfterEviction. change (checkpointsOn s2) with (checkpointsOn s1).
    unfold s1 at 1. rewrite truncated_checkpointsOn, Hon.
    rewrite (evictedWith_events {[0 := stm]} s2).
    change (events s2) with (events s1). change (len s2) with (len s1).
    by rewrite <- app_assoc, take_drop.
  - by apply (finishAppend_projection o h1 s2 e st st' H2 Hend).
Qed.

(** X7.  Append extends the projection by exactly the new event: in a
    store reached from construction by public operations, [restore] being
    given only snapshots whose index lies in [-1 .. events.length - 1],
    whose projection is [st], if the reducer maps [st] and the new event to
    [st'], then [append] succeeds, returns that event, and the store then
    projects [st'].  This holds across truncation of an undone future, and
    across eviction provided checkpointing is on. *)
Theorem X7_append_extends_projection o s (ep : P) (now_id now_ts : Z)
    (st st' : S) :
  reachable true o s →
  checkpointsOn s = true ∨ overflows (truncated s) = false →
  (project s).2 = Ok st →
  reducer st (makeEvent ep now_id now_ts (idCounter s)) = Some st' →
  (append ep now_id now_ts s).2 = Ok (makeEvent ep now_id now_ts (idCounter s))
  ∧ (project (append ep now_id now_ts s).1).2 = Ok st'.
Proof.
  intros (h & Hinv & _)%reachable_inv Hcase Hst Hst'.
  rewrite project_eq in Hst.
  destruct (projectAtIndex (index s) s) as [st0|] eqn:Hp; [|done].
  injection Hst as ->.
  destruct (append_projection o h s ep now_id now_ts st st' Hinv Hcase Hp Hst')
    as [Hr Hp'].
  split; [done|]. rewrite project_eq. by rewrite Hp'.
Qed.

Lemma length_slice_le {A} (a b : Z) (l : list A) :
  (length (slice a b l) ≤ length l)%nat.
Proof.
  unfold slice. rewrite length_take, length_drop. lia.
Qed.

Lemma truncated_len_le s : len (truncated s) ≤ len s.
Proof.
  unfold truncated, len. destruct (index s <? _); [|lia]. simpl.
  pose proof (length_slice_le 0 (index s + 1) (events s)). lia.
Qed.

(** X8.  Eviction bounds the log: with [maxEvents >= 2], an append into a
    store whose log holds at most [maxEvents] events leaves at most
    [maxEvents] events in the log, whether it succeeds or throws. *)
Theorem X8_append_keeps_log_bounded s (ep : P) (now_id now_ts : Z) :
  2 ≤ numOf (maxEvents (options s)) →
  len s ≤ numOf (maxEvents (options s)) →
  len (append ep now_id now_ts s).1 ≤ numOf (maxEvents (options s)).
Proof.
  intros Hmax Hlen. pose proof (truncated_len_le s) as Hle.
  rewrite append_eq; cbv zeta.
  set (e := makeEvent ep now_id now_ts (idCounter (truncated s))).
  set (s2 := set_idCounter (idCounter (truncated s) + 1)%N (truncated s)).
  change (overflows s2) with (overflows (truncated s)).
  assert (∀ s3, len (finishAppend e (pushEvent e s3)).1 = len s3 + 1) as Hfin.
  { intros s3. unfold len at 1. rewrite finishAppend_events.
    apply (pushEvent_len e s3). }
  destruct (overflows (truncated s)) eqn:Hov.
  - apply andb_prop in Hov as [_ Hge]. apply Z.leb_le in Hge.
    rewrite truncated_options in Hge.
    destruct (evict s2) as [s3 [[]|f]] eqn:He; apply evict_result in He.
    + destruct He as [cps ->]. rewrite Hfin, evictedWith_len.
      change (len s2) with (len (truncated s)).
      assert (len (truncated s) = numOf (maxEvents (options s))) as -> by lia.
      assert (1 ≤ numOf (maxEvents (options s)) / 2)
        by (apply Z.div_le_lower_bound; lia).
      lia.
    + destruct He as [-> _]. simpl. change (len s2) with (len (truncated s)). lia.
  - rewrite Hfin. change (len s2) with (len (truncated s)).
    unfold overflows in Hov. rewrite truncated_options in Hov.
    apply andb_false_iff in Hov as [Hf|Hlt].
    + unfold truthyN, numOf in *. destruct (maxEvents (options s)); [|lia].
      apply negb_false_iff, N.eqb_eq in Hf. lia.
    + apply Z.leb_gt in Hlt. lia.
Qed.

Lemma append_stored_event s (ep : P) (now_id now_ts : Z) (e : Event P) :
  indexInRange s →
  (append ep now_id now_ts s).2 = Ok e →
  e = makeEvent ep now_id now_ts (idCounter s)
  ∧ last (events (append ep now_id now_ts s).1) = Some e
  ∧ index (append ep now_id now_ts s).1 = len (append ep now_id now_ts s).1 - 1
  ∧ idCounter (append ep now_id now_ts s).1 = (idCounter s + 1)%N.
Proof.
  intros Hi. pose proof (truncated_len s Hi) as Hlen.
  pose proof (truncated_index s) as Hidx.
  rewrite append_eq; cbv zeta. rewrite truncated_idCounter.
  set (e0 := makeEvent ep now_id now_ts (idCounter s)).
  set (s2 := set_idCounter (idCounter s + 1)%N (truncated s)).
  change (overflows s2) with (overflows (truncated s)).
  assert (∀ s3, index s3 = len s3 - 1 → idCounter s3 = (idCounter s + 1)%N →
            (finishAppend e0 (pushEvent e0 s3)).2 = Ok e →
            e = e0
            ∧ last (events (finishAppend e0 (pushEvent e0 s3)).1) = Some e
            ∧ index (finishAppend e0 (pushEvent e0 s3)).1
              = len (finishAppend e0 (pushEvent e0 s3)).1 - 1
            ∧ idCounter (finishAppend e0 (pushEvent e0 s3)).1 = (idCounter s + 1)%N)
    as Hfin.
  { intros s3 Hend Hc Hok. apply finishAppend_Ok in Hok as ->.
    split; [done|]. unfold len. rewrite finishAppend_events, finishAppend_index.
    split; [unfold pushEvent; simpl; apply last_snoc|].
    split.
    - pose proof (pushEvent_len e0 s3) as Hp. unfold len in Hp. rewrite Hp.
      change (index (pushEvent e0 s3)) with (index s3 + 1). unfold len in Hend. lia.
    - destruct (finishAppend_store e0 (pushEvent e0 s3)) as [->|(st & _ & _ & ->)];
        exact Hc. }
  destruct (overflows (truncated s)).
  - destruct (evict s2) as [s3 [[]|f]] eqn:He; apply evict_result in He; [|done].
    destruct He as [cps ->]. apply Hfin; [apply evictedWith_index|done].
  - apply Hfin; [|done]. change (index s2) with (index (truncated s)).
    change (len s2) with (len (truncated s)). lia.
Qed.

(** X9.  A successful append returns the event it stored: the returned
    event carries the payload, the clock reading and the id built from the
    counter; it is the last event of the log; the cursor is on it; and the
    id counter has advanced by one. *)
Theorem X9_append_returns_the_stored_event s (ep : P) (now_id now_ts : Z)
    (e : Event P) :
  indexInRange s →
  (append ep now_id now_ts s).2 = Ok e →
  e = makeEvent ep now_id now_ts (idCounter s)
  ∧ last (events (append ep now_id now_ts s).1) = Some e
  ∧ index (append ep now_id now_ts s).1 = len (append ep now_id now_ts s).1 - 1
  ∧ idCounter (append ep now_id now_ts s).1 = (idCounter s + 1)%N.
Proof. apply append_stored_event. Qed.


(** ** Where checkpoints sit *)

Lemma truncated_checkpoints_inv s (k : Z) (v : S) :
  checkpoints (truncated s) !! k = Some v →
  checkpoints s !! k = Some v
  ∧ (index s < len s - 1 → k ≤ index s).
Proof.
  unfold truncated. destruct (Z.ltb_spec (index s) (len s - 1)); simpl.
  - intros [? ?]%map_lookup_filter_Some. by split.
  - intros ?. split; [done|lia].
Qed.

Lemma truncated_checkpointsInRange s :
  indexInRange s → checkpointsInRange s → checkpointsInRange (truncated s).
Proof.
  intros Hi [Hk Hoff]. pose proof (truncated_len s Hi) as Hlen. split.
  - intros k v Hkv. apply truncated_checkpoints_inv in Hkv as [Hkv Hcut].
    specialize (Hk k v Hkv). unfold indexInRange in Hi.
    destruct (decide (index s < len s - 1)); [specialize (Hcut ltac:(done))|]; lia.
  - rewrite truncated_checkpointsOn. intros Hf. specialize (Hoff Hf).
    unfold truncated. destruct (index s <? len s - 1); [|done]. simpl.
    rewrite Hoff. apply map_filter_empty.
Qed.

Lemma setCheckpoint_checkpointsInRange s (i : Z) (st : S) :
  checkpointsOn s = true → -1 ≤ i ≤ len s - 1 →
  checkpointsInRange s → checkpointsInRange (setCheckpoint i st s).
Proof.
  intros Hon Hi [Hk Hoff]. split.
  - intros k v. unfold setCheckpoint; simpl. change (len _) with (len s).
    destruct (decide (i = k)) as [->|Hne].
    + intros _. lia.
    + rewrite lookup_insert_ne by done. apply Hk.
  - change (checkpointsOn (setCheckpoint i st s)) with (checkpointsOn s).
    by rewrite Hon.
Qed.

Lemma pushEvent_checkpointsInRange s (e : Event P) :
  checkpointsInRange s → checkpointsInRange (pushEvent e s).
Proof.
  intros [Hk Hoff]. split; [|done].
  intros k v Hkv. specialize (Hk k v Hkv).
  pose proof (pushEvent_len e s). lia.
Qed.

Lemma intervalReached_on s : intervalReached s = true → checkpointsOn s = true.
Proof. unfold intervalReached. by intros [[? _]%andb_prop _]%andb_prop. Qed.

Lemma finishAppend_checkpointsInRange s (e : Event P) :
  -1 ≤ index s ≤ len s - 1 →
  checkpointsInRange s → checkpointsInRange (finishAppend e s).1.
Proof.
  intros Hi Hc.
  destruct (finishAppend_store e s) as [->|(st & Hreach & _ & ->)]; [done|].
  apply setCheckpoint_checkpointsInRange; [by apply intervalReached_on|done|done].
Qed.

Lemma append_checkpointsInRange s (ep : P) (now_id now_ts : Z) :
  indexInRange s → checkpointsInRange s →
  checkpointsInRange (append ep now_id now_ts s).1.
Proof.
  intros Hi Hc. pose proof (truncated_checkpointsInRange s Hi Hc) as H1.
  pose proof (truncated_len s Hi) as Hlen.
  pose proof (truncated_index s) as Hidx.
  rewrite append_eq; cbv zeta.
  set (e := makeEvent ep now_id now_ts (idCounter (truncated s))).
  set (s2 := set_idCounter (idCounter (truncated s) + 1)%N (truncated s)).
  assert (checkpointsInRange s2) as H2 by done.
  change (overflows s2) with (overflows (truncated s)).
  destruct (overflows (truncated s)) eqn:Hov.
  - pose proof (overflows_nonempty _ Hov) as Hpos.
    assert (0 ≤ len s2 / 2 < len s2) as Hmid.
    { change (len s2) with (len (truncated s)).
      split; [apply Z.div_pos; lia|apply Z.div_lt_upper_bound; lia]. }
    rewrite evict_eq. destruct (checkpointsOn s2) eqn:Hon.
    + destruct (projectAtIndex (len s2 / 2) s2) as [st|]; [|done].
      pose proof (evictedWith_len {[0 := st]} s2) as Hl3.
      apply finishAppend_checkpointsInRange.
      * rewrite pushEvent_len. change (index (pushEvent e _))
          with (index (evictedWith {[0 := st]} s2) + 1).
        rewrite evictedWith_index. lia.
      * apply pushEvent_checkpointsInRange. split.
        -- intros k v Hkv. simpl in Hkv.
           apply lookup_singleton_Some in Hkv as [<- _]. lia.
        -- change (checkpointsOn (evictedWith _ s2)) with (checkpointsOn s2).
           by rewrite Hon.
    + pose proof (evictedWith_len (checkpoints s2) s2) as Hl3.
      apply finishAppend_checkpointsInRange.
      * rewrite pushEvent_len. change (index (pushEvent e _))
          with (index (evictedWith (checkpoints s2) s2) + 1).
        rewrite evictedWith_index. lia.
      * apply pushEvent_checkpointsInRange. destruct H2 as [_ Hoff].
        specialize (Hoff Hon). split.
        -- intros k v Hkv.
           change (checkpoints (evictedWith (checkpoints s2) s2))
             with (checkpoints s2) in Hkv.
           rewrite Hoff in Hkv. by rewrite lookup_empty in Hkv.
        -- intros _. exact Hoff.
  - apply finishAppend_checkpointsInRange.
    + rewrite pushEvent_len. change (index (pushEvent e s2))
        with (index (truncated s) + 1).
      change (len s2) with (len (truncated s)). unfold indexInRange in Hi. lia.
    + by apply pushEvent_checkpointsInRange.
Qed.

Lemma rebuildFrom_checkpointsInRange (interval : Z) (fuel : nat) :
  0 ≤ interval →
  ∀ (i : Z) s, 0 ≤ i → index s ≤ len s - 1 → checkpointsOn s = true →
    checkpointsInRange s →
    checkpointsInRange (rebuildFrom fuel interval i s).1.
Proof.
  intros Hint. induction fuel as [|fuel IH]; intros i s Hi Hidx Hon Hc; [done|].
  rewrite rebuildFrom_S. destruct (Z.leb_spec i (index s)); [|done].
  destruct (projectAtIndex i s) as [st|]; [|done].
  apply IH; [lia|done|done|].
  apply setCheckpoint_checkpointsInRange; [done|lia|done].
Qed.

Lemma restore_checkpointsInRange (snapshot : Snapshot P S V) s :
  snapshotInRange snapshot → checkpointsInRange s →
  checkpointsInRange (restore snapshot s).1.
Proof.
  intros Hr Hc. rewrite restore_eq.
  destruct (snap_events snapshot) as [evs|] eqn:Hevs; [|done].
  specialize (Hr evs Hevs). cbv zeta.
  assert (checkpointsInRange (replacedBy evs snapshot s)) as H0.
  { split; [|done]. intros k v Hkv. simpl in Hkv. by rewrite lookup_empty in Hkv. }
  destruct (checkpointsOn s) eqn:Hon; [|done].
  assert (checkpointsInRange (setCheckpoint (-1) initialState (replacedBy evs snapshot s)))
    as H1.
  { apply setCheckpoint_checkpointsInRange; [done| |done].
    unfold len; simpl. lia. }
  destruct (truthyN (checkpointInterval (options s))) eqn:Ht; [|done].
  apply truthyN_numOf in Ht.
  unfold rebuildCheckpoints, mbind, M_bind, get.
  apply rebuildFrom_checkpointsInRange; try done.
  - simpl. lia.
  - simpl. lia.
  - unfold len; simpl. lia.
Qed.

Lemma forkBase_checkpointsInRange s : checkpointsInRange (forkBase s).
Proof.
  split.
  - intros k v Hkv. simpl in Hkv. unfold forkBase, len at 1; simpl.
    destruct (truthyB (enableCheckpoints (options s))).
    + apply lookup_singleton_Some in Hkv as [<- _]. lia.
    + by rewrite lookup_empty in Hkv.
  - unfold checkpointsOn, forkBase; simpl.
    destruct (enableCheckpoints (options s)) as [[]|]; simpl; done.
Qed.

Lemma fork_checkpointsInRange s (forked : Store) :
  fork s = Ok forked → checkpointsInRange forked.
Proof.
  pose proof (forkBase_checkpointsInRange s) as Hb.
  unfold fork. fold (forkBase s).
  destruct (checkpointsOn s && truthyN (checkpointInterval (options s))) eqn:Hc;
    [|by intros [= <-]].
  apply andb_prop in Hc as [Hon Ht]. apply truthyN_numOf in Ht.
  unfold mbind, M_bind, modify.
  destruct (rebuildFrom _ _ _ _) as [f' [[]|?]] eqn:Hf; [|done].
  intros [= <-]. replace f' with (f', Ok tt : Result unit).1 by done.
  rewrite <- Hf.
  assert (checkpointsOn (forkBase s) = true) as Hon'.
  { unfold checkpointsOn in *. simpl.
    destruct (enableCheckpoints (options s)) as [[]|]; done. }
  apply rebuildFrom_checkpointsInRange; [lia|lia| |done|].
  - unfold forkBase, len; simpl. lia.
  - apply (setCheckpoint_checkpointsInRange (forkBase s) (-1) initialState);
      [done| |done].
    unfold forkBase, len; simpl. lia.
Qed.

Lemma exec_checkpointsInRange s (op : Op P S V) :
  indexInRange s → opInRange op → checkpointsInRange s →
  checkpointsInRange (exec op s).
Proof.
  intros Hi Hop Hc. destruct op as [ep n1 n2| | |i|t|snapshot| |k v|]; simpl.
  - by apply append_checkpointsInRange.
  - rewrite undo_store. by destruct (0 <=? index s).
  - rewrite redo_store. by destruct (index s <? len s - 1).
  - by rewrite navigate_store.
  - by rewrite navigateToTime_store, navigate_store.
  - by apply restore_checkpointsInRange.
  - rewrite clear_eq; simpl. split.
    + intros k v Hkv. simpl in Hkv. unfold len; simpl.
      destruct (checkpointsOn s).
      * apply lookup_singleton_Some in Hkv as [<- _]. lia.
      * by rewrite lookup_empty in Hkv.
    + unfold checkpointsOn; simpl. fold (checkpointsOn s). by intros ->.
  - done.
  - destruct (fork s) as [forked|f] eqn:Hf; [|done].
    by apply (fork_checkpointsInRange s).
Qed.

Lemma reachable_checkpointsInRange (b : bool) o s :
  reachable b o s → checkpointsInRange s.
Proof.
  induction 1 as [|s op Hreach IH Hop _].
  - split.
    + intros k v Hkv. simpl in Hkv. unfold len; simpl.
      destruct (truthyB (enableCheckpoints o)).
      * apply lookup_singleton_Some in Hkv as [<- _]. lia.
      * by rewrite lookup_empty in Hkv.
    + unfold checkpointsOn; simpl.
      destruct (enableCheckpoints o) as [[]|]; done.
  - apply exec_checkpointsInRange; [|done|done].
    by apply (reachable_indexInRange b o).
Qed.

(** X10.  Spec invariant 3: in every store reached from construction by
    public operations, [restore] being given only snapshots whose index
    lies in [-1 .. events.length - 1], each checkpoint sits at position
    [-1] or at a position of the log, never beyond its end, and a store
    with checkpointing off holds no checkpoint at all. *)
Theorem X10_checkpoints_within_the_log (b : bool) o s :
  reachable b o s →
  (∀ k v, checkpoints s !! k = Some v → -1 ≤ k ≤ len s - 1)
  ∧ (checkpointsOn s = false → checkpoints s = ∅).
Proof. apply reachable_checkpointsInRange. Qed.


(** ** Fork, snapshot data, metadata *)

Lemma projectAtIndex_uncompacted s (p : Z) :
  coherent [] s → -1 ≤ p → projectAtIndex p s = reduce (upTo p s) initialState.
Proof.
  intros Hco Hp. destruct (decide (p = -1)) as [->|Hne].
  - by rewrite projectAtIndex_negative.
  - by rewrite (projectAtIndex_coherent [] s) by (done || lia).
Qed.

Lemma rebuildFrom_idCounter (interval : Z) (fuel : nat) :
  ∀ (i : Z) s, idCounter (rebuildFrom fuel interval i s).1 = idCounter s.
Proof.
  induction fuel as [|fuel IH]; intros i s; [done|].
  rewrite rebuildFrom_S. destruct (i <=? index s); [|done].
  destruct (projectAtIndex i s); [|done]. by rewrite IH.
Qed.

Lemma rebuildFrom_unchanged (interval : Z) (fuel : nat) :
  ∀ (i : Z) s,
    events (rebuildFrom fuel interval i s).1 = events s
    ∧ metadata (rebuildFrom fuel interval i s).1 = metadata s
    ∧ options (rebuildFrom fuel interval i s).1 = options s.
Proof.
  induction fuel as [|fuel IH]; intros i s; [done|].
  rewrite rebuildFrom_S. destruct (i <=? index s); [|done].
  destruct (projectAtIndex i s) as [st|]; [|done].
  apply (IH (i + interval) (setCheckpoint i st s)).
Qed.

Lemma fork_fields s (forked : Store) :
  fork s = Ok forked →
  events forked = getActiveEvents s
  ∧ index forked = len forked - 1
  ∧ metadata forked = metadata s
  ∧ idCounter forked = 0%N
  ∧ options forked = withDefaults (options s).
Proof.
  unfold fork. fold (forkBase s).
  destruct (checkpointsOn s && truthyN (checkpointInterval (options s)));
    [|by intros [= <-]].
  unfold mbind, M_bind, modify.
  destruct (rebuildFrom _ _ _ _) as [f' [[]|?]] eqn:Hf; [|done].
  intros [= <-].
  match type of Hf with
  | rebuildFrom ?fu ?n ?i ?x = _ =>
      destruct (rebuildFrom_unchanged n fu i x) as (He & Hm & Ho);
      pose proof (rebuildFrom_index fu n i x) as Hi;
      pose proof (rebuildFrom_idCounter n fu i x) as Hc
  end.
  rewrite Hf in He, Hm, Ho, Hi, Hc. simpl in He, Hm, Ho, Hi, Hc.
  unfold len. rewrite He, Hi. done.
Qed.

(** X11.  [fork] copies the active history: for a store reached from
    construction by public operations, [restore] being given only snapshots
    whose index lies in [-1 .. events.length - 1] and no append having
    installed the seed checkpoint of an eviction, the fork's log is the
    events up to the cursor, its cursor is at the end of that log (nothing to
    redo), its metadata is a copy, its id counter restarts at 0, and it
    projects the state the original projects. *)
Theorem X11_fork_copies_the_active_history o s (forked : Store) :
  reachable false o s →
  fork s = Ok forked →
  getEvents forked = getActiveEvents s
  ∧ index forked = len forked - 1
  ∧ canRedo forked = false
  ∧ metadata forked = metadata s
  ∧ idCounter forked = 0%N
  ∧ projectAtIndex (index forked) forked = projectAtIndex (index s) s.
Proof.
  intros Hreach Hf.
  destruct (reachable_inv false o s Hreach) as (h & Hinv & Hh).
  rewrite Hh in Hinv by done.
  pose proof (fork_inv o [] s forked Hinv Hf) as (_ & Hif & Hcof).
  destruct Hinv as (_ & Hi & Hco).
  destruct (fork_fields s forked Hf) as (He & Hidx & Hm & Hc & _).
  split_and!; try done.
  - unfold canRedo. apply Z.ltb_ge. lia.
  - rewrite (projectAtIndex_uncompacted forked) by (done || apply Hif).
    rewrite (projectAtIndex_uncompacted s) by (done || apply Hi).
    unfold upTo. rewrite Hidx. unfold len. rewrite He.
    unfold getActiveEvents. rewrite slice_prefix by apply Hi.
    rewrite take_ge; [done|]. lia.
Qed.

(** X12.  [snapshot] leaves the store as it is, and restoring its result
    into any store reproduces the snapshotted log, cursor and metadata
    exactly; the options of the receiving store are kept. *)
Theorem X12_snapshot_restore_data (now : Z) s (snap : Snapshot P S V)
    (target : Store) :
  (snapshot now s).2 = Ok snap →
  (snapshot now s).1 = s
  ∧ getEvents (restore snap target).1 = getEvents s
  ∧ getIndex (restore snap target).1 = getIndex s
  ∧ metadata (restore snap target).1 = metadata s
  ∧ options (restore snap target).1 = options target.
Proof.
  rewrite snapshot_eq.
  destruct (projectAtIndex (index s) s) as [st|]; [|done].
  intros [= <-]. split; [done|].
  set (snap := {| snap_events := Some (events s); snap_index := index s;
                  snap_state := Some st; snap_timestamp := now;
                  snap_metadata := Some (metadata s) |}).
  destruct (restore_fields snap (events s) target eq_refl) as (? & ? & ? & ? & _).
  done.
Qed.

Lemma finishAppend_metadata (e : Event P) s :
  metadata (finishAppend e s).1 = metadata s.
Proof. by destruct (finishAppend_store e s) as [->|(st & _ & _ & ->)]. Qed.

Lemma truncated_metadata s : metadata (truncated s) = metadata s.
Proof. unfold truncated. by destruct (index s <? len s - 1). Qed.

Lemma append_metadata s (ep : P) (now_id now_ts : Z) :
  metadata (append ep now_id now_ts s).1 = metadata s.
Proof.
  rewrite append_eq; cbv zeta.
  destruct (overflows _).
  - destruct (evict _) as [s3 [[]|f]] eqn:He; apply evict_result in He.
    + destruct He as [cps ->]. rewrite finishAppend_metadata. simpl.
      apply truncated_metadata.
    + destruct He as [-> _]. simpl. apply truncated_metadata.
  - rewrite finishAppend_metadata. simpl. apply truncated_metadata.
Qed.

(** X13.  Metadata is a key-value store of its own: [getMetadata(k)] after
    [setMetadata(k, v)] returns [v], the other keys and the log, cursor and
    checkpoints are untouched, an unset key reads as undefined in a new
    store, and [append] never changes the metadata. *)
Theorem X13_metadata_round_trip s (k : string) (v : V) :
  getMetadata k (setMetadata k v s).1 = Some v
  ∧ (∀ k', k' ≠ k → getMetadata k' (setMetadata k v s).1 = getMetadata k' s)
  ∧ events (setMetadata k v s).1 = events s
  ∧ index (setMetadata k v s).1 = index s
  ∧ checkpoints (setMetadata k v s).1 = checkpoints s
  ∧ (∀ o, getMetadata k (new o : Store) = None)
  ∧ (∀ (ep : P) (now_id now_ts : Z) k',
       getMetadata k' (append ep now_id now_ts s).1 = getMetadata k' s).
Proof.
  unfold getMetadata, setMetadata, modify; simpl. split_and!; try done.
  - apply lookup_insert_eq.
  - intros k' Hne. by apply lookup_insert_ne.
  - intros ep now_id now_ts k'. by rewrite append_metadata.
Qed.


(** ** Where checkpoints are created *)

Lemma rebuildFrom_keys (interval : Z) (fuel : nat) :
  total → 1 ≤ interval →
  ∀ (i : Z) s, (Z.to_nat (index s - i + 1) ≤ fuel)%nat →
    ∀ k, is_Some (checkpoints (rebuildFrom fuel interval i s).1 !! k)
         ↔ is_Some (checkpoints s !! k)
           ∨ (i ≤ k ≤ index s ∧ (k - i) `mod` interval = 0).
Proof.
  intros Ht Hint. induction fuel as [|fuel IH]; intros i s Hfuel k.
  - simpl. split; [by left|]. intros [?|[? _]]; [done|lia].
  - rewrite rebuildFrom_S. destruct (Z.leb_spec i (index s)) as [Hle|Hgt].
    + destruct (projectAtIndex_total s i Ht) as [st ->].
      rewrite IH by (change (index (setCheckpoint i st s)) with (index s); lia).
      change (index (setCheckpoint i st s)) with (index s).
      change (checkpoints (setCheckpoint i st s)) with (<[i:=st]> (checkpoints s)).
      rewrite lookup_insert_is_Some.
      replace (k - (i + interval)) with (k - i + (-1) * interval) by lia.
      rewrite Z_mod_plus_full.
      split.
      * intros [[->|[_ ?]]|[? ?]]; [right|by left|right].
        -- split; [lia|]. by rewrite Z.sub_diag, Z.mod_0_l by lia.
        -- split; [lia|done].
      * intros [?|[Hr Hm]]; [destruct (decide (i = k)); [by left; left|by left; right]|].
        destruct (decide (i = k)) as [->|Hne]; [by left; left|]. right.
        split; [|done]. apply Z.mod_divide in Hm as [q Hq]; [|lia].
        assert (1 ≤ q) by nia. nia.
    + simpl. split; [by left|]. intros [?|[? _]]; [done|lia].
Qed.

(** X14.  [restore] rebuilds the checkpoints at fixed positions: with
    checkpointing on, an interval [n >= 1] and a reducer that does not
    throw, the restored store has a checkpoint exactly at [-1] and at the
    positions [n-1, 2n-1, ...] up to the restored index. *)
Theorem X14_restore_checkpoint_positions (snapshot : Snapshot P S V)
    (evs : list (Event P)) s (k : Z) :
  total →
  checkpointsOn s = true →
  truthyN (checkpointInterval (options s)) = true →
  snap_events snapshot = Some evs →
  is_Some (checkpoints (restore snapshot s).1 !! k)
  ↔ k = -1
    ∨ (0 ≤ k ≤ snap_index snapshot
       ∧ (k + 1) `mod` numOf (checkpointInterval (options s)) = 0).
Proof.
  intros Ht Hon Hn Hevs. rewrite restore_eq, Hevs. cbv zeta. rewrite Hon, Hn.
  pose proof (truthyN_numOf _ Hn) as Hint.
  unfold rebuildCheckpoints, mbind, M_bind, get.
  set (s1 := setCheckpoint (-1) initialState (replacedBy evs snapshot s)).
  change (options s1) with (options s).
  set (n := numOf (checkpointInterval (options s))) in *.
  rewrite (rebuildFrom_keys n _ Ht Hint) by lia.
  change (index s1) with (snap_index snapshot).
  change (checkpoints s1) with (<[-1:=initialState]> (∅ : gmap Z S)).
  rewrite lookup_insert_is_Some, lookup_empty.
  replace (k - (n - 1)) with (k + 1 + (-1) * n) by lia.
  rewrite Z_mod_plus_full.
  split.
  - intros [[->|[_ []%is_Some_None]]|[? ?]]; [by left|right]. split; [lia|done].
  - intros [->|[Hr Hm]]; [by left; left|]. right. split; [|done].
    apply Z.mod_divide in Hm as [q Hq]; [|lia]. assert (1 ≤ q) by nia. nia.
Qed.

(** X15.  [append] checkpoints the positions that are multiples of the
    interval: after a successful append that does not evict, into a store
    reached from construction by public operations, [restore] being given
    only snapshots whose index lies in [-1 .. events.length - 1], the new
    cursor position carries a checkpoint exactly when checkpointing is on
    and the position is a multiple of the interval, and that checkpoint
    holds the state the store projects. *)
Theorem X15_append_checkpoint_policy (b : bool) o s (ep : P)
    (now_id now_ts : Z) (e : Event P) :
  reachable b o s →
  overflows (truncated s) = false →
  (append ep now_id now_ts s).2 = Ok e →
  (intervalReached (append ep now_id now_ts s).1 = true →
   ∃ st, checkpoints (append ep now_id now_ts s).1
           !! index (append ep now_id now_ts s).1 = Some st
         ∧ (project (append ep now_id now_ts s).1).2 = Ok st)
  ∧ (intervalReached (append ep now_id now_ts s).1 = false →
     checkpoints (append ep now_id now_ts s).1
       !! index (append ep now_id now_ts s).1 = None).
Proof.
  intros Hreach Hov.
  pose proof (reachable_indexInRange b o s Hreach) as Hi.
  pose proof (truncated_checkpointsInRange s Hi
                (reachable_checkpointsInRange b o s Hreach)) as [Hk _].
  pose proof (truncated_len s Hi) as Hlen.
  pose proof (truncated_index s) as Hidx.
  rewrite append_eq; cbv zeta.
  set (e0 := makeEvent ep now_id now_ts (idCounter (truncated s))).
  set (s2 := set_idCounter (idCounter (truncated s) + 1)%N (truncated s)).
  change (overflows s2) with (overflows (truncated s)). rewrite Hov.
  set (s4 := pushEvent e0 s2).
  assert (index s4 = index s + 1) as Hi4.
  { change (index s4) with (index (truncated s) + 1). lia. }
  unfold finishAppend. destruct (intervalReached s4) eqn:Hr.
  - destruct (projectAtIndex (index s4) s4) as [st|] eqn:Hst; [|done].
    assert (projectAtIndex (index s4) (setCheckpoint (index s4) st s4) = Some st)
      as Hst'.
    { apply projectAtIndex_at_checkpoint.
      - by apply intervalReached_on in Hr.
      - unfold indexInRange in Hi. lia.
      - simpl. apply lookup_insert_eq. }
    destruct (projectAtIndex _ (setCheckpoint _ _ _)) as [st2|] eqn:Hp; [|done].
    injection Hst' as ->. intros _. split.
    + intros _. exists st. split; [simpl; apply lookup_insert_eq|].
      rewrite project_eq.
      replace (projectAtIndex
                 (index (setCheckpoint (index s4) st s4, Ok e0 : Result (Event P)).1)
                 (setCheckpoint (index s4) st s4, Ok e0 : Result (Event P)).1)
        with (Some st) by (symmetry; exact Hp).
      done.
    + change (intervalReached (setCheckpoint (index s4) st s4, Ok e0).1)
        with (intervalReached s4). by rewrite Hr.
  - destruct (projectAtIndex (index s4) s4) as [st|] eqn:Hst; [|done].
    intros _. simpl. split; [by rewrite Hr|]. intros _.
    change (checkpoints s4) with (checkpoints (truncated s)).
    destruct (checkpoints (truncated s) !! index s4) as [v|] eqn:Hv; [|done].
    specialize (Hk _ _ Hv). lia.
Qed.


(** ** Undo after append *)

Lemma coherent_empty_log h s : coherent h s → len s = 0 → h = [].
Proof.
  unfold coherent. intros Hco Hlen. destruct (checkpointsOn s); [|done].
  destruct Hco as [Hc Hh]. destruct h as [|e h]; [done|].
  destruct Hh as [v Hv]; [done|]. destruct (Hc 0 v Hv); lia.
Qed.

Lemma finishAppend_previous o h s (e : Event P) (st : S) :
  inv o h s → index s = len s - 1 →
  reduce (h ++ events s) initialState = Some st →
  projectAtIndex (index (finishAppend e (pushEvent e s)).1 - 1)
    (finishAppend e (pushEvent e s)).1 = Some st.
Proof.
  intros Hinv Hend Hst.
  destruct (pushEvent_inv o h s e Hinv Hend) as (H4 & Hend4 & Hpos4).
  pose proof (finishAppend_inv o h _ e H4 Hpos4) as (_ & _ & Hco5).
  rewrite finishAppend_index.
  change (index (pushEvent e s)) with (index s + 1).
  replace (index s + 1 - 1) with (index s) by lia.
  destruct (decide (index s < 0)) as [Hneg|Hpos].
  - rewrite projectAtIndex_negative by done.
    destruct Hinv as (_ & _ & Hco).
    assert (len s = 0) as Hlen by (unfold len in *; lia).
    rewrite (coherent_empty_log h s Hco Hlen) in Hst.
    unfold len in Hlen. destruct (events s); [|simpl in Hlen; lia]. done.
  - rewrite (projectAtIndex_coherent h _ _ Hco5) by lia.
    unfold upTo. rewrite finishAppend_events. unfold pushEvent; simpl.
    rewrite take_app_le by (unfold len in Hend; lia).
    rewrite take_ge by (unfold len in Hend; lia). done.
Qed.

Lemma append_previous o h s (ep : P) (now_id now_ts : Z) (st st' : S) :
  inv o h s →
  checkpointsOn s = true ∨ overflows (truncated s) = false →
  projectAtIndex (index s) s = Some st →
  reducer st (makeEvent ep now_id now_ts (idCounter s)) = Some st' →
  projectAtIndex (index (append ep now_id now_ts s).1 - 1)
    (append ep now_id now_ts s).1 = Some st.
Proof.
  intros Hinv Hcase Hst Hst'.
  destruct (truncated_inv o h s Hinv) as [H1 Hend].
  pose proof Hinv as (Ho & Hi & Hco).
  assert (reduce (historyAfterTruncation h s ++ events (truncated s)) initialState
          = Some st) as Hfold.
  { rewrite truncated_events by apply Hi. unfold historyAfterTruncation.
    destruct (Z.ltb_spec (index s) 0) as [Hneg|Hpos].
    - rewrite projectAtIndex_negative in Hst by done. injection Hst as <-.
      replace (Z.to_nat (index s + 1)) with 0%nat by lia. done.
    - by rewrite (projectAtIndex_coherent h s) in Hst by done. }
  rewrite append_eq; cbv zeta. rewrite truncated_idCounter.
  set (s1 := truncated s) in *. set (h1 := historyAfterTruncation h s) in *.
  set (e := makeEvent ep now_id now_ts (idCounter s)) in *.
  set (s2 := set_idCounter (idCounter s + 1)%N s1).
  assert (inv o h1 s2) as H2 by done.
  change (overflows s2) with (overflows s1).
  destruct (overflows s1) eqn:Hov.
  - destruct Hcase as [Hon|?]; [|done].
    pose proof (overflows_nonempty s1 Hov) as Hpos.
    assert (0 ≤ len s1 / 2 < len s1) as Hmid.
    { split; [apply Z.div_pos; lia|apply Z.div_lt_upper_bound; lia]. }
    destruct H1 as (Ho1 & Hi1 & Hco1).
    assert (is_Some (projectAtIndex (len s1 / 2) s1)) as [stm Hstm].
    { rewrite (projectAtIndex_coherent h1 s1) by (done || lia).
      apply (reduce_prefix_Some _
        (drop (Z.to_nat (len s1 / 2 + 1)) (events s1)) _ st).
      unfold upTo. by rewrite <- app_assoc, take_drop. }
    pose proof (evict_eq s2) as He.
    change (checkpointsOn s2) with (checkpointsOn s1) in He.
    unfold s1 in He at 1. rewrite truncated_checkpointsOn, Hon in He.
    change (projectAtIndex (len s2 / 2) s2)
      with (projectAtIndex (len s1 / 2) s1) in He.
    rewrite Hstm in He. rewrite He.
    pose proof (evict_inv o h1 s2 _ (Ok tt) H2 Hpos He) as (H3 & Hend3 & _).
    apply (finishAppend_previous o _ _ e st H3 Hend3).
    unfold historyAfterEviction. change (checkpointsOn s2) with (checkpointsOn s1).
    unfold s1 at 1. rewrite truncated_checkpointsOn, Hon.
    rewrite (evictedWith_events {[0 := stm]} s2).
    change (events s2) with (events s1). change (len s2) with (len s1).
    by rewrite <- app_assoc, take_drop.
  - by apply (finishAppend_previous o h1 s2 e st H2 Hend).
Qed.

(** X16.  Undo reverses append: in a store reached from construction by
    public operations, [restore] being given only snapshots whose index
    lies in [-1 .. events.length - 1], that projects [st],
    after an append whose event the reducer accepts (with checkpointing on,
    or without eviction), [undo()] returns [true] and the store projects
    [st] again, also when the append truncated an undone future or evicted
    half of the log. *)
Theorem X16_undo_reverses_append o s (ep : P) (now_id now_ts : Z)
    (st st' : S) :
  reachable true o s →
  checkpointsOn s = true ∨ overflows (truncated s) = false →
  (project s).2 = Ok st →
  reducer st (makeEvent ep now_id now_ts (idCounter s)) = Some st' →
  (undo (append ep now_id now_ts s).1).2 = Ok true
  ∧ (project (undo (append ep now_id now_ts s).1).1).2 = Ok st.
Proof.
  intros Hreach Hcase Hst Hst'.
  pose proof (reachable_indexInRange true o s Hreach) as Hi.
  destruct (reachable_inv true o s Hreach) as (h & Hinv & _).
  rewrite project_eq in Hst.
  destruct (projectAtIndex (index s) s) as [st0|] eqn:Hp; [|done].
  injection Hst as ->.
  pose proof (append_previous o h s ep now_id now_ts st st' Hinv Hcase Hp Hst')
    as Hprev.
  destruct (append_projection o h s ep now_id now_ts st st' Hinv Hcase Hp Hst')
    as [Hok _].
  destruct (append_stored_event s ep now_id now_ts _ Hi Hok) as (_ & _ & Hend & _).
  set (s' := (append ep now_id now_ts s).1) in *.
  assert (0 ≤ index s') as Hpos.
  { assert (0 < len s'); [|lia]. unfold s', len.
    destruct (append_stored_event s ep now_id now_ts _ Hi Hok) as (_ & Hlast & _).
    destruct (events (append ep now_id now_ts s).1); [done|simpl; lia]. }
  unfold undo, project, projectAtIndexM, mbind, M_bind, get, modify, mret, M_ret.
  destruct (Z.leb_spec 0 (index s')); [|lia].
  change (index (set_index (index s' - 1) s')) with (index s' - 1).
  change (projectAtIndex (index s' - 1) (set_index (index s' - 1) s'))
    with (projectAtIndex (index s' - 1) s').
  rewrite Hprev. simpl.
  change (projectAtIndex (index s' - 1) (set_index (index s' - 1) s'))
    with (projectAtIndex (index s' - 1) s').
  by rewrite Hprev.
Qed.


(** ** Callers: [rewind], [init], [BaseAdapter] *)

Lemma rewind_store s (steps : Z) :
  (rewind steps s).1
  = set_index (Z.max (-1) (Z.min (Z.max (-1) (index s - steps)) (len s - 1))) s.
Proof.
  unfold rewind, mbind, M_bind, get. simpl. apply navigate_store.
Qed.

Lemma set_index_set_index s (i j : Z) :
  set_index i (set_index j s) = set_index i s.
Proof. done. Qed.

(** X17.  [rewind(n)] with [n >= 0] moves the cursor back by [n] positions
    and stops at [-1]; two rewinds compose into one; and [rewind(1)] leaves
    the store as [undo()] does.  (Stated for stores whose cursor is in
    range.) *)
Theorem X17_rewind_composes s (a b : Z) :
  indexInRange s →
  0 ≤ a → 0 ≤ b →
  index (rewind a s).1 = Z.max (-1) (index s - a)
  ∧ (rewind b (rewind a s).1).1 = (rewind (a + b) s).1
  ∧ (rewind 1 s).1 = (undo s).1.
Proof.
  intros [Hlo Hhi] Ha Hb. rewrite !rewind_store, undo_store. simpl.
  change (len (set_index _ s)) with (len s).
  rewrite set_index_set_index. split_and!.
  - lia.
  - f_equal. lia.
  - destruct (Z.leb_spec 0 (index s)).
    + f_equal. lia.
    + assert (index s = -1) as Hi by lia.
      destruct s as [evs i cps c m o]. simpl in *. subst i.
      unfold set_index; simpl. f_equal. unfold len; simpl. lia.
Qed.

Lemma reachable_initial_checkpoint o s :
  truthyB (enableCheckpoints o) = true →
  reachable false o s →
  checkpoints s !! (-1) = Some initialState.
Proof.
  intros Hon. induction 1 as [|s op Hreach IH Hop Hc].
  - simpl. rewrite Hon. apply lookup_singleton_eq.
  - apply exec_initial_checkpoint; [| |by apply Hc|done].
    + by apply (reachable_indexInRange false o s).
    + unfold checkpointsOn. rewrite (reachable_options false o s Hreach).
      simpl. unfold truthyB in Hon. by destruct (enableCheckpoints o) as [[]|].
Qed.

(** X18.  A store created by [init] always evicts (its [maxEvents] is never
    falsy: a configured 0 becomes 10000), has checkpointing on unless the
    configuration says [enableCheckpoints: false], and, because [init]
    always passes the flag explicitly, carries the initial checkpoint at
    [-1] whenever checkpointing is on.  The store is any store reached from
    the one [init] constructs by public operations, [restore] being given
    only snapshots whose index lies in [-1 .. events.length - 1] and no
    append having installed the seed checkpoint of an eviction. *)
Theorem X18_init_store_options (config : TerminalsConfig) s :
  reachable false (storeOptions config) s →
  truthyN (maxEvents (options s)) = true
  ∧ (checkpointsOn s = true ↔ cfg_enableCheckpoints config ≠ Some false)
  ∧ (checkpointsOn s = true → checkpoints s !! (-1) = Some initialState).
Proof.
  intros Hreach.
  pose proof (reachable_options false _ s Hreach) as Ho.
  unfold checkpointsOn. rewrite Ho. simpl. split_and!.
  - unfold truthyN. destruct (cfg_maxEvents config) as [n|]; [|done].
    simpl. destruct (n =? 0)%N eqn:Hn; [done|]. simpl. by rewrite Hn.
  - destruct (cfg_enableCheckpoints config) as [[]|]; naive_solver.
  - intros Hon. apply (reachable_initial_checkpoint (storeOptions config)); [|done].
    simpl. by destruct (cfg_enableCheckpoints config) as [[]|].
Qed.

Lemma finishAppend_Ok_projects (e e' : Event P) s :
  (finishAppend e s).2 = Ok e' →
  is_Some (projectAtIndex (index (finishAppend e s).1) (finishAppend e s).1).
Proof.
  unfold finishAppend. destruct (intervalReached s).
  - destruct (projectAtIndex (index s) s) as [st|]; [|done].
    destruct (projectAtIndex _ (setCheckpoint _ _ _)) as [st2|] eqn:Hp; [|done].
    intros _. simpl. exists st2. exact Hp.
  - destruct (projectAtIndex (index s) s) as [st|] eqn:Hp; [|done].
    intros _. simpl. by exists st.
Qed.

Lemma append_Ok_projects s (ep : P) (now_id now_ts : Z) (e : Event P) :
  (append ep now_id now_ts s).2 = Ok e →
  is_Some (projectAtIndex (index (append ep now_id now_ts s).1)
             (append ep now_id now_ts s).1).
Proof.
  rewrite append_eq; cbv zeta. destruct (overflows _).
  - destruct (evict _) as [s3 [[]|f]]; [|done]. apply finishAppend_Ok_projects.
  - apply finishAppend_Ok_projects.
Qed.

(** X19.  [BaseAdapter] adds no failure of its own to [dispatch], [undo]
    and [redo]: each leaves the store exactly as the store's method does,
    and it throws exactly when that method throws, because the projection
    that [notifyListeners] computes has already succeeded inside the
    store's method. *)
Theorem X19_adapter_follows_the_store s (ep : P) (now_id now_ts : Z) :
  ((BaseAdapter_dispatch ep now_id now_ts s).1 = (append ep now_id now_ts s).1
   ∧ ((BaseAdapter_dispatch ep now_id now_ts s).2 = Ok tt
      ↔ ∃ e, (append ep now_id now_ts s).2 = Ok e))
  ∧ ((BaseAdapter_undo s).1 = (undo s).1
     ∧ ((BaseAdapter_undo s).2 = Ok tt ↔ ∃ b, (undo s).2 = Ok b))
  ∧ ((BaseAdapter_redo s).1 = (redo s).1
     ∧ ((BaseAdapter_redo s).2 = Ok tt ↔ ∃ b, (redo s).2 = Ok b)).
Proof.
  split_and!.
  - unfold BaseAdapter_dispatch, notifyListeners, project, projectAtIndexM.
    unfold mbind at 1, M_bind at 1.
    destruct (append ep now_id now_ts s) as [s' [e|f]] eqn:Ha; [|done].
    unfold mbind, M_bind, get, mret, M_ret. simpl.
    by destruct (projectAtIndex (index s') s').
  - unfold BaseAdapter_dispatch, notifyListeners, project, projectAtIndexM.
    unfold mbind at 1, M_bind at 1.
    pose proof (append_Ok_projects s ep now_id now_ts) as Hp.
    destruct (append ep now_id now_ts s) as [s' [e|f]] eqn:Ha.
    + destruct (Hp e eq_refl) as [st Hst]. simpl in Hst.
      unfold mbind, M_bind, get, mret, M_ret. simpl. rewrite Hst. simpl.
      split; [by eexists|done].
    + simpl. split; [done|by intros [e ?]].
  - unfold BaseAdapter_undo, undo, notifyListeners, project, projectAtIndexM.
    unfold mbind, M_bind, get, modify, when, mret, M_ret. simpl.
    destruct (0 <=? index s); [|done]. simpl.
    destruct (projectAtIndex (index s - 1) (set_index (index s - 1) s)) eqn:Hp;
      [|done].
    simpl. by rewrite Hp.
  - unfold BaseAdapter_undo, undo, notifyListeners, project, projectAtIndexM.
    unfold mbind, M_bind, get, modify, when, mret, M_ret. simpl.
    destruct (0 <=? index s); [|split; [by eexists|done]]. simpl.
    destruct (projectAtIndex (index s - 1) (set_index (index s - 1) s)) eqn:Hp.
    + simpl. rewrite Hp. simpl. split; [by eexists|done].
    + simpl. split; [done|by intros [? ?]].
  - unfold BaseAdapter_redo, redo, notifyListeners, project, projectAtIndexM.
    unfold mbind, M_bind, get, modify, when, mret, M_ret. simpl.
    destruct (index s <? len s - 1); [|done]. simpl.
    destruct (projectAtIndex (index s + 1) (set_index (index s + 1) s)) eqn:Hp;
      [|done].
    simpl. by rewrite Hp.
  - unfold BaseAdapter_redo, redo, notifyListeners, project, projectAtIndexM.
    unfold mbind, M_bind, get, modify, when, mret, M_ret. simpl.
    destruct (index s <? len s - 1); [|split; [by eexists|done]]. simpl.
    destruct (projectAtIndex (index s + 1) (set_index (index s + 1) s)) eqn:Hp.
    + simpl. rewrite Hp. simpl. split; [by eexists|done].
    + simpl. split; [done|by intros [? ?]].
Qed.


(** ** Active events and time ranges *)

Lemma filter_none {A} (Q : A → Prop) `{∀ x, Decision (Q x)} (l : list A) :
  (∀ x, x ∈ l → ¬ Q x) → filter Q l = [].
Proof.
  induction l as [|x l IH]; intros Hall; [done|].
  rewrite filter_cons_False by (apply Hall, elem_of_cons; by left).
  apply IH. intros y Hy. apply Hall, elem_of_cons. by right.
Qed.

Lemma scanTime_take_filter (lo t : Z) (evs : list (Event P)) :
  nondecreasing evs →
  (∀ e, e ∈ evs → lo ≤ ev_timestamp e) →
  ∀ i0 : Z,
    take (Z.to_nat (scanTime t evs i0 (i0 - 1) - i0 + 1)) evs
    = filter (λ e, lo ≤ ev_timestamp e ∧ ev_timestamp e ≤ t) evs.
Proof.
  induction evs as [|e evs IH]; intros Hmono Hlo i0; [by rewrite take_nil|].
  destruct Hmono as [Hhead Htail]. simpl scanTime.
  assert (lo ≤ ev_timestamp e) as Hloe by (apply Hlo, elem_of_cons; by left).
  destruct (Z.leb_spec (ev_timestamp e) t) as [Hle|Hgt].
  - rewrite filter_cons_True by done.
    pose proof (scanTime_run t evs (i0 + 1)) as Hrun. cbv zeta in Hrun.
    replace (i0 + 1 - 1) with i0 in Hrun by lia. destruct Hrun as (Hr & _ & _).
    replace (Z.to_nat (scanTime t evs (i0 + 1) i0 - i0 + 1))
      with (Datatypes.S (Z.to_nat (scanTime t evs (i0 + 1) i0 - (i0 + 1) + 1)))
      by lia.
    simpl. f_equal.
    specialize (IH Htail (λ e' He', Hlo e' (proj2 (elem_of_cons _ _ _) (or_intror He')))
                  (i0 + 1)).
    by replace (i0 + 1 - 1) with i0 in IH by lia.
  - replace (Z.to_nat (i0 - 1 - i0 + 1)) with 0%nat by lia. simpl.
    symmetry. apply filter_none.
    intros e' [->|He']%elem_of_cons; [lia|]. specialize (Hhead e' He'). lia.
Qed.

(** X20.  In a log whose timestamps are non-decreasing, navigating to time
    [t] makes the active events exactly the events of the time range up to
    [t]: [getActiveEvents()] after [navigateToTime(t)] equals
    [getEventsInRange(lo, t)] for any [lo] not later than the first
    event. *)
Theorem X20_navigateToTime_selects_the_time_range s (lo t : Z) :
  nondecreasing (events s) →
  (∀ e, e ∈ events s → lo ≤ ev_timestamp e) →
  getActiveEvents (navigateToTime t s).1 = getEventsInRange lo t s.
Proof.
  intros Hmono Hlo. rewrite navigateToTime_store, navigate_store.
  unfold getActiveEvents, getEventsInRange. simpl.
  pose proof (scanTime_run t (events s) 0) as Hrun. cbv zeta in Hrun.
  change (0 - 1) with (-1) in Hrun. destruct Hrun as (Hr & _ & _).
  replace (Z.max (-1) (Z.min (scanTime t (events s) 0 (-1)) (len s - 1)))
    with (scanTime t (events s) 0 (-1)) by (unfold len; lia).
  rewrite slice_prefix by lia.
  pose proof (scanTime_take_filter lo t (events s) Hmono Hlo 0) as Htf.
  change (0 - 1) with (-1) in Htf.
  by replace (scanTime t (events s) 0 (-1) - 0 + 1)
    with (scanTime t (events s) 0 (-1) + 1) in Htf by lia.
Qed.

(** X21.  In every store whose cursor lies in [-1 .. events.length - 1]
    the active events are the first [index + 1] events of the log; they are
    the whole log exactly when there is nothing to redo. *)
Theorem X21_active_events_are_a_prefix s :
  indexInRange s →
  getActiveEvents s = take (Z.to_nat (index s + 1)) (getEvents s)
  ∧ Z.of_nat (length (getActiveEvents s)) = index s + 1
  ∧ (canRedo s = false ↔ getActiveEvents s = getEvents s).
Proof.
  intros [Hlo Hhi].
  unfold getActiveEvents, getEvents, canRedo, len in *.
  rewrite slice_prefix by done. split; [done|]. split.
  - rewrite length_take. lia.
  - rewrite Z.ltb_ge. split.
    + intros Hend. apply take_ge. lia.
    + intros Heq. apply (f_equal length) in Heq. rewrite length_take in Heq. lia.
Qed.


(** ** Event ids *)

Lemma dashFree_pretty_N_go (x : N) :
  ∀ acc : string, dashFree acc → dashFree (pretty_N_go x acc).
Proof.
  induction (N.lt_wf_0 x) as [x _ IH]; intros acc Hacc.
  assert (x = 0 ∨ 0 < x)%N as [->|Hpos] by lia.
  - by rewrite pretty_N_go_0.
  - rewrite pretty_N_go_step by done. apply IH; [by apply N.div_lt|].
    split; [|done]. unfold pretty_N_char. by repeat case_match.
Qed.

Lemma dashFree_pretty_N (x : N) : dashFree (pretty x).
Proof.
  unfold pretty, pretty_N. destruct (decide (x = 0%N)).
  - simpl. split; [done|done].
  - by apply dashFree_pretty_N_go.
Qed.

Lemma not_dashFree_dash (a b : string) : ¬ dashFree (a +:+ "-" +:+ b).
Proof.
  induction a as [|c a IH]; simpl.
  - by intros [? _].
  - intros [_ ?]. by apply IH.
Qed.

(** What follows the last [-] of a string is determined by the string. *)
Lemma after_last_dash_inj (a a' b b' : string) :
  dashFree b → dashFree b' →
  a +:+ "-" +:+ b = a' +:+ "-" +:+ b' → b = b'.
Proof.
  intros Hb Hb'. revert a'.
  induction a as [|c a IH]; intros [|c' a'] Heq.
  - change (String "-" b = String "-" b') in Heq. by injection Heq.
  - change (String "-" b = String c' (a' +:+ "-" +:+ b')) in Heq.
    injection Heq as _ ->. by apply not_dashFree_dash in Hb.
  - change (String c (a +:+ "-" +:+ b) = String "-" b') in Heq.
    injection Heq as _ <-. by apply not_dashFree_dash in Hb'.
  - change (String c (a +:+ "-" +:+ b) = String c' (a' +:+ "-" +:+ b')) in Heq.
    injection Heq as _ Heq. by apply (IH a').
Qed.

Lemma event_id_counter_inj (ep ep' : P) (t t' ts ts' : Z) (c c' : N) :
  ev_id (makeEvent ep t ts c) = ev_id (makeEvent ep' t' ts' c') → c = c'.
Proof.
  unfold makeEvent; simpl. intros [= Heq].
  apply after_last_dash_inj in Heq; [|apply dashFree_pretty_N..].
  by apply (inj pretty) in Heq.
Qed.

(** Every event of the log was made by this store, with a counter value
    that the store has passed, and no two events share an id. *)
Definition ownIds s : Prop :=
  NoDup (ev_id <$> events s)
  ∧ ∀ e, e ∈ events s →
      ∃ (ep : P) (t ts : Z) (c : N),
        e = makeEvent ep t ts c ∧ (c < idCounter s)%N.

Lemma slice_sublist {A} (a b : Z) (l : list A) : slice a b l `sublist_of` l.
Proof.
  unfold slice. etrans; [apply sublist_take|apply sublist_drop].
Qed.

Lemma ownIds_sublist s (l : list (Event P)) (n : N) :
  ownIds s → l `sublist_of` events s → (idCounter s ≤ n)%N →
  NoDup (ev_id <$> l)
  ∧ ∀ e, e ∈ l →
      ∃ (ep : P) (t ts : Z) (c : N), e = makeEvent ep t ts c ∧ (c < n)%N.
Proof.
  intros [Hnd Hown] Hsub Hn. split.
  - eapply sublist_NoDup; [exact Hnd|]. by apply fmap_sublist.
  - intros e He. destruct (Hown e (elem_of_sublist _ _ _ He Hsub))
      as (ep & t & ts & c & -> & Hc).
    exists ep, t, ts, c. split; [done|lia].
Qed.

Lemma ownIds_snoc (l : list (Event P)) (ep : P) (t ts : Z) (n : N) :
  NoDup (ev_id <$> l) →
  (∀ e, e ∈ l →
     ∃ (ep : P) (t ts : Z) (c : N), e = makeEvent ep t ts c ∧ (c < n)%N) →
  NoDup (ev_id <$> (l ++ [makeEvent ep t ts n]))
  ∧ ∀ e, e ∈ l ++ [makeEvent ep t ts n] →
      ∃ (ep : P) (t ts : Z) (c : N),
        e = makeEvent ep t ts c ∧ (c < n + 1)%N.
Proof.
  intros Hnd Hown. split.
  - rewrite fmap_app. apply NoDup_app. split; [done|]. split.
    + intros i Hi Hi'. apply list_elem_of_singleton in Hi'.
      apply list_elem_of_fmap in Hi as (e & -> & He).
      destruct (Hown e He) as (ep' & t' & ts' & c & -> & Hc).
      apply event_id_counter_inj in Hi'. lia.
    + apply NoDup_singleton.
  - intros e [He|He%list_elem_of_singleton]%elem_of_app.
    + destruct (Hown e He) as (ep' & t' & ts' & c & -> & Hc).
      exists ep', t', ts', c. split; [done|lia].
    + exists ep, t, ts, n. split; [done|lia].
Qed.

Lemma finishAppend_idCounter (e : Event P) s :
  idCounter (finishAppend e s).1 = idCounter s.
Proof. by destruct (finishAppend_store e s) as [->|(st & _ & _ & ->)]. Qed.

Lemma truncated_sublist s : events (truncated s) `sublist_of` events s.
Proof.
  unfold truncated. destruct (index s <? len s - 1); [|done]. simpl.
  apply slice_sublist.
Qed.

Lemma append_ownIds s (ep : P) (now_id now_ts : Z) :
  ownIds s → ownIds (append ep now_id now_ts s).1.
Proof.
  intros Hown. rewrite append_eq; cbv zeta. rewrite truncated_idCounter.
  set (e := makeEvent ep now_id now_ts (idCounter s)).
  set (s2 := set_idCounter (idCounter s + 1)%N (truncated s)).
  assert (∀ s3, events s3 `sublist_of` events s →
            idCounter s3 = (idCounter s + 1)%N →
            ownIds (finishAppend e (pushEvent e s3)).1) as Hfin.
  { intros s3 Hsub Hc. unfold ownIds.
    rewrite finishAppend_events, finishAppend_idCounter.
    change (events (pushEvent e s3)) with (events s3 ++ [e]).
    change (idCounter (pushEvent e s3)) with (idCounter s3). rewrite Hc.
    destruct (ownIds_sublist s (events s3) (idCounter s) Hown Hsub) as [Hnd Hm];
      [lia|].
    by apply ownIds_snoc. }
  destruct (overflows s2).
  - destruct (evict s2) as [s3 [[]|f]] eqn:He; apply evict_result in He.
    + destruct He as [cps ->]. apply Hfin; [|done].
      etrans; [apply slice_sublist|apply truncated_sublist].
    + destruct He as [-> _]. simpl.
      apply (ownIds_sublist s); [done|apply truncated_sublist|simpl; lia].
  - apply Hfin; [apply truncated_sublist|done].
Qed.

Lemma exec_ownIds s (op : Op P S V) :
  importsEvents op = false → ownIds s → ownIds (exec op s).
Proof.
  intros Hop Hown. destruct op as [ep n1 n2| | |i|t|snapshot| |k v|];
    try done; simpl.
  - by apply append_ownIds.
  - rewrite undo_store. by destruct (0 <=? index s).
  - rewrite redo_store. by destruct (index s <? len s - 1).
  - by rewrite navigate_store.
  - by rewrite navigateToTime_store, navigate_store.
  - rewrite clear_eq. simpl. split; [constructor|].
    intros e He. simpl in He. by apply elem_of_nil in He.
Qed.

(** X22.  Ids identify events: in a store grown from construction by
    append, undo, redo, navigation, setMetadata and clear (no [restore], no
    [fork]), no two events of the log have the same id, whatever the clock
    readings were. *)
Theorem X22_event_ids_are_unique o s :
  grown o s → NoDup (ev_id <$> getEvents s).
Proof.
  intros Hg. cut (ownIds s); [by intros [? _]|].
  induction Hg as [|s op _ IH Hop].
  - split; [constructor|]. intros e He. simpl in He. by apply elem_of_nil in He.
  - by apply exec_ownIds.
Qed.


(** X23.  A checkpoint is a cache of a prefix fold: in a store reached
    from construction by public operations, [restore] being given only
    snapshots whose index lies in [-1 .. events.length - 1] and no append
    having installed the seed checkpoint of an eviction, the checkpoint at
    a log position [k >= 0] holds the fold of the reducer over the events
    [0 .. k] from the initial state. *)
Theorem X23_checkpoints_cache_prefix_folds o s (k : Z) (v : S) :
  reachable false o s →
  0 ≤ k →
  checkpoints s !! k = Some v →
  reduce (slice 0 (k + 1) (events s)) initialState = Some v.
Proof.
  intros Hreach Hk Hv.
  destruct (reachable_inv false o s Hreach) as (h & (_ & _ & Hco) & Hh).
  rewrite Hh in Hco by done. rewrite slice_prefix by lia.
  unfold coherent in Hco. destruct (checkpointsOn s) eqn:Hon.
  - destruct Hco as [Hc _]. by destruct (Hc k v Hv Hk) as [_ ?].
  - destruct (reachable_checkpointsInRange false o s Hreach) as [_ Hoff].
    rewrite (Hoff Hon) in Hv. by rewrite lookup_empty in Hv.
Qed.


(** ** Append after undo *)







(** ** Append under a throwing reducer *)

Lemma finishAppend_None (e : Event P) s :
  projectAtIndex (index s) s = None →
  finishAppend e s = (s, Throw ReducerFault).
Proof.
  intros Hn. unfold finishAppend. rewrite Hn. by destruct (intervalReached s).
Qed.

(** The last steps of [append] throw only where the projection at the cursor
    does, and then they have changed nothing: the projection that follows an
    interval checkpoint reads that checkpoint and calls no reducer. *)
Lemma finishAppend_Throw (e : Event P) s (f : Fault) :
  (finishAppend e s).2 = Throw f →
  f = ReducerFault
  ∧ (finishAppend e s).1 = s
  ∧ projectAtIndex (index s) s = None.
Proof.
  unfold finishAppend. destruct (intervalReached s) eqn:Hr.
  - destruct (projectAtIndex (index s) s) as [st|] eqn:Hst; [|by intros [= <-]].
    assert (projectAtIndex (index s) (setCheckpoint (index s) st s) = Some st)
      as ->; [|done].
    destruct (decide (index s < 0)) as [Hneg|Hpos].
    + rewrite projectAtIndex_negative in Hst by done.
      by rewrite projectAtIndex_negative.
    + apply projectAtIndex_at_checkpoint; [by apply intervalReached_on|lia|].
      simpl. apply lookup_insert_eq.
  - destruct (projectAtIndex (index s) s); [done|by intros [= <-]].
Qed.

(** C5 (amended).  [append] throws exactly when the reducer throws in one of
    the projections it makes, and the fault reaches the caller as it is; the
    store is not rolled back.  If the reducer throws while the seed of an
    eviction is projected (checkpointing on, the log full), the store is
    left truncated with its id counter advanced, the new event not in the
    log.  If it throws in the projection at the new cursor, the store is
    left with the truncation (and the eviction, if any) applied, the id
    counter advanced, the new event in the log and the cursor on it, and no
    checkpoint made by this append. *)
Theorem C5_append_fault_is_not_rolled_back s (ep : P) (now_id now_ts : Z) :
  let s1 := truncated s in
  let e := makeEvent ep now_id now_ts (idCounter s) in
  let s2 := set_idCounter (idCounter s + 1)%N s1 in
  let s' := (append ep now_id now_ts s).1 in
  (overflows s1 = true → checkpointsOn s = true →
   projectAtIndex (len s1 / 2) s1 = None →
   append ep now_id now_ts s = (s2, Throw ReducerFault))
  ∧ (∀ s3, (if overflows s1 then evict s2 else (s2, Ok tt)) = (s3, Ok tt) →
       projectAtIndex (index s3 + 1) (pushEvent e s3) = None →
       append ep now_id now_ts s = (pushEvent e s3, Throw ReducerFault))
  ∧ (∀ f, (append ep now_id now_ts s).2 = Throw f →
       f = ReducerFault
       ∧ idCounter s' = (idCounter s + 1)%N
       ∧ (overflows s1 = false →
          s' = pushEvent e s2
          ∧ events s' = events s1 ++ [e] ∧ index s' = index s + 1
          ∧ checkpoints s' = checkpoints s1
          ∧ projectAtIndex (index s + 1) (pushEvent e s2) = None)
       ∧ (overflows s1 = true →
          (s' = s2
           ∧ events s' = events s1 ∧ index s' = index s
           ∧ checkpoints s' = checkpoints s1
           ∧ checkpointsOn s = true
           ∧ projectAtIndex (len s1 / 2) s1 = None)
          ∨ (∃ s3, evict s2 = (s3, Ok tt)
             ∧ s' = pushEvent e s3
             ∧ events s' = sliceFrom (len s1 / 2) (events s1) ++ [e]
             ∧ index s' = len s' - 1
             ∧ projectAtIndex (index s3 + 1) (pushEvent e s3) = None))).
Proof.
  cbv zeta. rewrite append_eq; cbv zeta. rewrite truncated_idCounter.
  set (e := makeEvent ep now_id now_ts (idCounter s)).
  set (s2 := set_idCounter (idCounter s + 1)%N (truncated s)).
  change (overflows s2) with (overflows (truncated s)).
  split_and!.
  - intros -> Hon Hn. rewrite evict_eq.
    change (checkpointsOn s2) with (checkpointsOn (truncated s)).
    rewrite truncated_checkpointsOn, Hon.
    change (projectAtIndex (len s2 / 2) s2)
      with (projectAtIndex (len (truncated s) / 2) (truncated s)).
    by rewrite Hn.
  - intros s3 Hs3 Hn. destruct (overflows (truncated s)).
    + rewrite Hs3. by apply finishAppend_None.
    + injection Hs3 as <-. by apply finishAppend_None.
  - intros f. destruct (overflows (truncated s)) eqn:Hov.
    + destruct (evict s2) as [s3 [[]|f']] eqn:He.
      * intros (-> & Hst & Hn)%finishAppend_Throw. rewrite Hst.
        pose proof He as He'. apply evict_result in He' as [cps ->].
        split_and!; [done|done|done|]. intros _. right.
        exists (evictedWith cps s2). split_and!; [done|done|done| |done].
        pose proof (pushEvent_len e (evictedWith cps s2)) as Hp.
        rewrite Hp.
        change (index (pushEvent e (evictedWith cps s2)))
          with (index (evictedWith cps s2) + 1).
        rewrite evictedWith_index. unfold len. lia.
      * simpl. intros [= <-]. rewrite evict_eq in He.
        change (checkpointsOn s2) with (checkpointsOn (truncated s)) in He.
        rewrite truncated_checkpointsOn in He.
        destruct (checkpointsOn s); [|done].
        change (projectAtIndex (len s2 / 2) s2)
          with (projectAtIndex (len (truncated s) / 2) (truncated s)) in He.
        destruct (projectAtIndex (len (truncated s) / 2) (truncated s)) eqn:Hp;
          [done|]. injection He as <- <-.
        split_and!; [done|done|done|]. intros _. left.
        split_and!; try done. apply truncated_index.
    + intros (-> & Hst & Hn)%finishAppend_Throw. rewrite Hst.
      split_and!; [done|done| |done]. intros _.
      split_and!; try done.
      * simpl. by rewrite truncated_index.
      * change (index (pushEvent e s2)) with (index (truncated s) + 1) in Hn.
        by rewrite truncated_index in Hn.
Qed.


End Properties.

(** * The claims on concrete stores *)

Import Counter.

Ltac reach_by_steps :=
  cbv [evicted3 twoAppends twoAppendsSeeded fiveAppends branchPoint
       clockWentBack initTwo twoAppendsOff twoEvery undoneTwice
       appendOnes Nat.iter nat_rect];
  repeat (apply reach_step; [|exact I|first [discriminate|reflexivity]]);
  apply reach_new.

Lemma evicted3_reachable : reachable 0 reducer true smallOptions evicted3.
Proof. reach_by_steps. Qed.

Lemma reducer_total : total reducer.
Proof. intros st e. by eexists. Defined.

(** C1, as stated, fails once an append has evicted: the log of [evicted3]
    holds two events, its seed checkpoint the state of a dropped one. *)
Lemma C1_counterexample :
  ∃ (s : CStore) (p : Z),
    reachable 0 reducer true smallOptions s
    ∧ -1 ≤ p ≤ len s - 1
    ∧ projectAtIndex 0 reducer p s
      ≠ reduce reducer (slice 0 (p + 1) (events s)) 0.
Proof.
  exists evicted3, 1. split; [apply evicted3_reachable|].
  split; [vm_compute; split; discriminate|].
  vm_compute. discriminate.
Qed.

Lemma C1_witness :
  reachable 0 reducer false defaults twoAppends
  ∧ -1 ≤ 1 ≤ len twoAppends - 1
  ∧ projectAtIndex 0 reducer 1 twoAppends
    = reduce reducer (slice 0 (1 + 1) (events twoAppends)) 0.
Proof.
  assert (reachable 0 reducer false defaults twoAppends) as Hr by reach_by_steps.
  assert (-1 ≤ 1 ≤ len twoAppends - 1) as Hp by (vm_compute; split; discriminate).
  split; [exact Hr|]. split; [exact Hp|].
  exact (C1_checkpoint_projection_is_full_fold 0 reducer _ twoAppends 1 Hr Hp).
Defined.

(** C2, as stated, fails with checkpointing switched off: the eviction
    branch then installs no seed checkpoint and the state contributed by the
    discarded events is lost.  In a store of at most two events that
    projects 2 after two appends of the amount one, the third such append
    evicts and leaves the projection at 2; the projection at position 1 of
    the compacted store is not the projection at [midpoint + 1] of the same
    store left uncompacted. *)
Lemma C2_counterexample :
  ∃ s : CStore,
    reachable 0 reducer true offOptions s
    ∧ overflows (truncated s) = true
    ∧ (project 0 reducer s).2 = Ok 2
    ∧ (project 0 reducer (append 0 reducer 1 1000 1000 s).1).2 = Ok 2
    ∧ projectAtIndex 0 reducer 1 (append 0 reducer 1 1000 1000 s).1
      ≠ projectAtIndex 0 reducer (len (truncated s) / 2 + 1)
          (pushEvent (makeEvent 1 1000 1000 (idCounter (truncated s)))
             (truncated s)).
Proof.
  exists twoAppendsOff. split; [reach_by_steps|]. by vm_compute.
Qed.

(** C2 (amended).  With a log of at most five events and checkpointing left
    at its defaults, ten appends against the reducer that adds one leave at most
    five events in the log and project the count ten.  More generally, when
    an append into a store with checkpointing on, reached by public
    operations in which [restore] is given snapshots whose index lies in
    [-1 .. events.length - 1], runs the eviction
    branch, the seed checkpoint it installs at position [0] is the state
    projected at the midpoint, the log keeps the events from the midpoint on,
    and the projection at every position [q >= 0] of the compacted store is
    the projection at [midpoint + q] of the same store left uncompacted. *)
Theorem C2_eviction_keeps_projections :
  ((length (getEvents limited10) ≤ 5)%nat
   ∧ (project 0 reducer limited10).2 = Ok 10)
  ∧ ∀ (P S V : Type) (initialState : S) (reducer : S → Event P → option S)
      (o : EventStoreOptions) (s : Store P S V)
      (ep : P) (now_id now_ts : Z) (st : S),
      reachable initialState reducer true o s →
      checkpointsOn s = true →
      overflows (truncated s) = true →
      projectAtIndex initialState reducer (len (truncated s) / 2) (truncated s)
        = Some st →
      let s1 := truncated s in
      let e := makeEvent ep now_id now_ts (idCounter s1) in
      let s' := (append initialState reducer ep now_id now_ts s).1 in
      events s' = drop (Z.to_nat (len s1 / 2)) (events s1) ++ [e]
      ∧ checkpoints s' !! 0 = Some st
      ∧ ∀ q, 0 ≤ q →
          projectAtIndex initialState reducer q s'
          = projectAtIndex initialState reducer (len s1 / 2 + q) (pushEvent e s1).
Proof.
  split.
  - split; [vm_compute; lia|by vm_compute].
  - intros P S V initialState reducer o s ep now_id now_ts st
      (h & Hinv & _)%reachable_inv Hon Hov Hst.
    by apply (append_eviction_preserves initialState reducer o h).
Qed.

Lemma C2_witness :
  (reachable 0 reducer true limitedOptions fiveAppends
   ∧ checkpointsOn fiveAppends = true
   ∧ overflows (truncated fiveAppends) = true
   ∧ projectAtIndex 0 reducer (len (truncated fiveAppends) / 2)
       (truncated fiveAppends) = Some 3)
  ∧ (events (append 0 reducer 1 1001 1001 fiveAppends).1
     = drop (Z.to_nat (len (truncated fiveAppends) / 2))
         (events (truncated fiveAppends))
       ++ [makeEvent 1 1001 1001 (idCounter (truncated fiveAppends))]
     ∧ checkpoints (append 0 reducer 1 1001 1001 fiveAppends).1 !! 0 = Some 3
     ∧ ∀ q, 0 ≤ q →
         projectAtIndex 0 reducer q (append 0 reducer 1 1001 1001 fiveAppends).1
         = projectAtIndex 0 reducer (len (truncated fiveAppends) / 2 + q)
             (pushEvent
                (makeEvent 1 1001 1001 (idCounter (truncated fiveAppends)))
                (truncated fiveAppends))).
Proof.
  assert (reachable 0 reducer true limitedOptions fiveAppends) as Hr
    by reach_by_steps.
  assert (checkpointsOn fiveAppends = true) as H1 by reflexivity.
  assert (overflows (truncated fiveAppends) = true) as H2 by reflexivity.
  assert (projectAtIndex 0 reducer (len (truncated fiveAppends) / 2)
            (truncated fiveAppends) = Some 3) as H3 by reflexivity.
  split; [by repeat split|].
  exact (proj2 C2_eviction_keeps_projections Z Z unit 0 reducer limitedOptions
           fiveAppends 1 1001 1001 3 Hr H1 H2 H3).
Defined.

(** C3 (code at the failing input).  [evicted3] projects 3 and its snapshot
    records the state 3 with the two events left in the log; restoring that
    snapshot into a fresh store of the same configuration succeeds and
    yields the snapshotted events, but the restored store projects 2: the
    state kept in the seed checkpoint of the source is lost. *)
Theorem C3_restore_after_eviction :
  reachable 0 reducer true smallOptions evicted3
  ∧ (snapshot 0 reducer 2000 evicted3).2 = Ok evictedSnapshot
  ∧ snap_state evictedSnapshot = Some 3
  ∧ (restore 0 reducer evictedSnapshot (new 0 smallOptions)).2 = Ok tt
  ∧ Some (getEvents (restore 0 reducer evictedSnapshot (new 0 smallOptions)).1)
    = snap_events evictedSnapshot
  ∧ (project 0 reducer
       (restore 0 reducer evictedSnapshot (new 0 smallOptions)).1).2 = Ok 2.
Proof.
  split; [apply evicted3_reachable|]. by vm_compute.
Qed.



(** C5, as stated, fails: the reducer throws on the first event appended to
    a new store, and the store is left with that event in its log and the
    cursor on it. *)
Lemma C5_counterexample :
  ∃ (s : CStore) (ep : Z),
    (append 0 strictReducer ep 1 1 s).2 = Throw ReducerFault
    ∧ events (append 0 strictReducer ep 1 1 s).1 ≠ events s
    ∧ index (append 0 strictReducer ep 1 1 s).1 ≠ index s.
Proof.
  exists (new 0 defaults), (-1). by vm_compute.
Qed.

Lemma C5_witness :
  ((if overflows (truncated (new 0 defaults : CStore))
    then evict 0 strictReducer
           (set_idCounter 1%N (truncated (new 0 defaults : CStore)))
    else (set_idCounter 1%N (truncated (new 0 defaults : CStore)), Ok tt))
   = (set_idCounter 1%N (new 0 defaults : CStore), Ok tt)
   ∧ projectAtIndex 0 strictReducer
       (index (set_idCounter 1%N (new 0 defaults : CStore)) + 1)
       (pushEvent (makeEvent (-1) 1 1 0%N)
          (set_idCounter 1%N (new 0 defaults : CStore))) = None)
  ∧ append 0 strictReducer (-1) 1 1 (new 0 defaults : CStore)
    = (pushEvent (makeEvent (-1) 1 1 0%N)
         (set_idCounter 1%N (new 0 defaults : CStore)),
       Throw ReducerFault).
Proof.
  assert ((if overflows (truncated (new 0 defaults : CStore))
           then evict 0 strictReducer
                  (set_idCounter 1%N (truncated (new 0 defaults : CStore)))
           else (set_idCounter 1%N (truncated (new 0 defaults : CStore)), Ok tt))
          = (set_idCounter 1%N (new 0 defaults : CStore), Ok tt)) as H1
    by reflexivity.
  assert (projectAtIndex 0 strictReducer
            (index (set_idCounter 1%N (new 0 defaults : CStore)) + 1)
            (pushEvent (makeEvent (-1) 1 1 0%N)
               (set_idCounter 1%N (new 0 defaults : CStore))) = None) as H2
    by reflexivity.
  split; [by split|].
  exact (proj1 (proj2 (C5_append_fault_is_not_rolled_back 0 strictReducer
                         (new 0 defaults : CStore) (-1) 1 1)) _ H1 H2).
Defined.



(** C7, as stated, fails when the timestamps are not non-decreasing: with
    the timestamps 5 and 3 in the log, [navigateToTime(4)] stops at the
    first event and moves the cursor to -1, although the event at position
    1 has the timestamp 3. *)
Lemma C7_counterexample :
  ∃ (s : CStore) (t : Z),
    reachable 0 reducer true defaults s
    ∧ spec_navigateToTime_target t s = 1
    ∧ index (navigateToTime 0 reducer t s).1 = -1.
Proof.
  exists clockWentBack, 4. split; [reach_by_steps|]. by vm_compute.
Qed.

Lemma twoAppends_nondecreasing : nondecreasing (events twoAppends).
Proof.
  vm_compute events. simpl. split_and!; try done.
  - intros e' ->%list_elem_of_singleton. done.
  - intros e' He'. by apply elem_of_nil in He'.
Defined.

Lemma C7_witness :
  nondecreasing (events twoAppends)
  ∧ index (navigateToTime 0 reducer 1000 twoAppends).1
    = spec_navigateToTime_target 1000 twoAppends.
Proof.
  split; [exact twoAppends_nondecreasing|].
  exact (proj2 (C7_navigateToTime_cursor 0 reducer twoAppends 1000)
           twoAppends_nondecreasing).
Defined.

(** C8, as stated, fails: a snapshot without [state] and with the index 7
    for an empty list of events is restored without a fault, and overwrites
    the events and the index of the store. *)
Lemma C8_counterexample :
  ∃ (snapshot : Snapshot Z Z unit) (s : CStore),
    snap_state snapshot = None
    ∧ ¬ snapshotInRange snapshot
    ∧ (restore 0 reducer snapshot s).2 = Ok tt
    ∧ events (restore 0 reducer snapshot s).1 ≠ events s
    ∧ index (restore 0 reducer snapshot s).1 ≠ index s
    ∧ ¬ indexInRange (restore 0 reducer snapshot s).1.
Proof.
  exists statelessSnapshot, twoAppends. split; [done|]. split.
  - intros H. specialize (H [] eq_refl). simpl in H. lia.
  - split; [by vm_compute|]. split; [by vm_compute|]. split; [by vm_compute|].
    unfold indexInRange. vm_compute. intros [_ H]. by apply H.
Qed.

Lemma C8_witness :
  (snap_events statelessSnapshot = Some [] ∧ total reducer)
  ∧ events (restore 0 reducer statelessSnapshot twoAppends).1 = []
  ∧ index (restore 0 reducer statelessSnapshot twoAppends).1
    = snap_index statelessSnapshot
  ∧ metadata (restore 0 reducer statelessSnapshot twoAppends).1
    = default ∅ (snap_metadata statelessSnapshot)
  ∧ (restore 0 reducer statelessSnapshot twoAppends).2 = Ok tt.
Proof.
  split; [split; [reflexivity|exact reducer_total]|].
  destruct (proj2 (C8_restore_validates_nothing 0 reducer statelessSnapshot
                     twoAppends) [] eq_refl) as (H1 & H2 & H3 & H4).
  exact (conj H1 (conj H2 (conj H3 (H4 reducer_total)))).
Defined.

Lemma C9_witness :
  (total reducer ∧ 0 ≤ index twoAppends ≤ len twoAppends - 1)
  ∧ ∃ s1 s2,
      undo 0 reducer twoAppends = (s1, Ok true)
      ∧ redo 0 reducer s1 = (s2, Ok true)
      ∧ (project 0 reducer s2).2 = (project 0 reducer twoAppends).2
      ∧ s2 = twoAppends.
Proof.
  assert (0 ≤ index twoAppends ≤ len twoAppends - 1) as Hi
    by (vm_compute; split; discriminate).
  split; [split; [exact reducer_total|exact Hi]|].
  exact (C9_undo_then_redo 0 reducer twoAppends reducer_total Hi).
Defined.

(** * Further properties on concrete stores *)

Lemma twoAppends_reachable (b : bool) : reachable 0 reducer b defaults twoAppends.
Proof. reach_by_steps. Defined.

Lemma twoAppends_indexInRange : indexInRange twoAppends.
Proof. vm_compute. split; discriminate. Defined.

Lemma X1_witness :
  reachable 0 reducer true defaults branchPoint
  ∧ -1 ≤ index branchPoint ≤ len branchPoint - 1.
Proof.
  assert (reachable 0 reducer true defaults branchPoint) as Hr by reach_by_steps.
  split; [exact Hr|].
  exact (X1_cursor_in_range 0 reducer true defaults branchPoint Hr).
Defined.

Lemma X3_witness :
  isNavigation (OUndo : Op Z Z unit) = true
  ∧ events (exec 0 reducer OUndo twoAppends) = events twoAppends
  ∧ checkpoints (exec 0 reducer OUndo twoAppends) = checkpoints twoAppends
  ∧ metadata (exec 0 reducer OUndo twoAppends) = metadata twoAppends
  ∧ idCounter (exec 0 reducer OUndo twoAppends) = idCounter twoAppends
  ∧ options (exec 0 reducer OUndo twoAppends) = options twoAppends.
Proof.
  split; [reflexivity|].
  exact (X3_navigation_moves_only_the_cursor 0 reducer twoAppends OUndo eq_refl).
Defined.

Lemma X4_witness :
  (total reducer ∧ -1 ≤ index branchPoint ∧ index branchPoint < len branchPoint - 1)
  ∧ ∃ s1, redo 0 reducer branchPoint = (s1, Ok true)
          ∧ undo 0 reducer s1 = (branchPoint, Ok true).
Proof.
  assert (-1 ≤ index branchPoint) as H1 by (vm_compute; discriminate).
  assert (index branchPoint < len branchPoint - 1) as H2 by reflexivity.
  split; [exact (conj reducer_total (conj H1 H2))|].
  exact (X4_redo_then_undo 0 reducer branchPoint reducer_total H1 H2).
Defined.

Lemma X6_witness :
  (checkpointsOn twoAppends = true ∧ 0 ≤ 0 ∧ checkpoints twoAppends !! 0 = Some 1)
  ∧ projectAtIndex 0 reducer 0 twoAppends = Some 1.
Proof.
  assert (checkpointsOn twoAppends = true) as H1 by reflexivity.
  assert (0 ≤ 0) as H2 by (vm_compute; discriminate).
  assert (checkpoints twoAppends !! 0 = Some 1) as H3 by reflexivity.
  split; [exact (conj H1 (conj H2 H3))|].
  exact (X6_projection_at_a_checkpoint 0 reducer twoAppends 0 1 H1 H2 H3).
Defined.

Lemma X7_witness :
  (reachable 0 reducer true defaults twoAppends
   ∧ (checkpointsOn twoAppends = true ∨ overflows (truncated twoAppends) = false)
   ∧ (project 0 reducer twoAppends).2 = Ok 2
   ∧ reducer 2 (makeEvent 1 1001 1001 (idCounter twoAppends)) = Some 3)
  ∧ (append 0 reducer 1 1001 1001 twoAppends).2
    = Ok (makeEvent 1 1001 1001 (idCounter twoAppends))
  ∧ (project 0 reducer (append 0 reducer 1 1001 1001 twoAppends).1).2 = Ok 3.
Proof.
  assert (checkpointsOn twoAppends = true ∨ overflows (truncated twoAppends) = false)
    as H1 by (left; reflexivity).
  assert ((project 0 reducer twoAppends).2 = Ok 2) as H2 by reflexivity.
  assert (reducer 2 (makeEvent 1 1001 1001 (idCounter twoAppends)) = Some 3)
    as H3 by reflexivity.
  split; [exact (conj (twoAppends_reachable true) (conj H1 (conj H2 H3)))|].
  exact (X7_append_extends_projection 0 reducer defaults twoAppends 1 1001 1001
           2 3 (twoAppends_reachable true) H1 H2 H3).
Defined.

Lemma X8_witness :
  (2 ≤ numOf (maxEvents (options fiveAppends))
   ∧ len fiveAppends ≤ numOf (maxEvents (options fiveAppends)))
  ∧ len (append 0 reducer 1 1001 1001 fiveAppends).1
    ≤ numOf (maxEvents (options fiveAppends)).
Proof.
  assert (2 ≤ numOf (maxEvents (options fiveAppends))) as H1
    by (vm_compute; discriminate).
  assert (len fiveAppends ≤ numOf (maxEvents (options fiveAppends))) as H2
    by (vm_compute; discriminate).
  split; [exact (conj H1 H2)|].
  exact (X8_append_keeps_log_bounded 0 reducer fiveAppends 1 1001 1001 H1 H2).
Defined.

Lemma X9_witness :
  (indexInRange twoAppends
   ∧ (append 0 reducer 1 1001 1001 twoAppends).2
     = Ok (makeEvent 1 1001 1001 2%N))
  ∧ makeEvent 1 1001 1001 2%N = makeEvent 1 1001 1001 (idCounter twoAppends)
  ∧ last (events (append 0 reducer 1 1001 1001 twoAppends).1)
    = Some (makeEvent 1 1001 1001 2%N)
  ∧ index (append 0 reducer 1 1001 1001 twoAppends).1
    = len (append 0 reducer 1 1001 1001 twoAppends).1 - 1
  ∧ idCounter (append 0 reducer 1 1001 1001 twoAppends).1
    = (idCounter twoAppends + 1)%N.
Proof.
  assert ((append 0 reducer 1 1001 1001 twoAppends).2
          = Ok (makeEvent 1 1001 1001 2%N)) as H1 by reflexivity.
  split; [exact (conj twoAppends_indexInRange H1)|].
  exact (X9_append_returns_the_stored_event 0 reducer twoAppends 1 1001 1001 _
           twoAppends_indexInRange H1).
Defined.

Lemma X10_witness :
  reachable 0 reducer true smallOptions evicted3
  ∧ (∀ k v, checkpoints evicted3 !! k = Some v → -1 ≤ k ≤ len evicted3 - 1)
  ∧ (checkpointsOn evicted3 = false → checkpoints evicted3 = ∅).
Proof.
  assert (reachable 0 reducer true smallOptions evicted3) as Hr by reach_by_steps.
  split; [exact Hr|].
  exact (X10_checkpoints_within_the_log 0 reducer true smallOptions evicted3 Hr).
Defined.

Lemma X11_witness :
  (reachable 0 reducer false defaults twoAppends
   ∧ fork 0 reducer twoAppends = Ok forkedTwo)
  ∧ getEvents forkedTwo = getActiveEvents twoAppends
  ∧ index forkedTwo = len forkedTwo - 1
  ∧ canRedo forkedTwo = false
  ∧ metadata forkedTwo = metadata twoAppends
  ∧ idCounter forkedTwo = 0%N
  ∧ projectAtIndex 0 reducer (index forkedTwo) forkedTwo
    = projectAtIndex 0 reducer (index twoAppends) twoAppends.
Proof.
  assert (fork 0 reducer twoAppends = Ok forkedTwo) as H1 by reflexivity.
  split; [exact (conj (twoAppends_reachable false) H1)|].
  exact (X11_fork_copies_the_active_history 0 reducer defaults twoAppends forkedTwo
           (twoAppends_reachable false) H1).
Defined.

Lemma X12_witness :
  (snapshot 0 reducer 2000 twoAppends).2 = Ok twoSnapshot
  ∧ (snapshot 0 reducer 2000 twoAppends).1 = twoAppends
  ∧ getEvents (restore 0 reducer twoSnapshot evicted3).1 = getEvents twoAppends
  ∧ getIndex (restore 0 reducer twoSnapshot evicted3).1 = getIndex twoAppends
  ∧ metadata (restore 0 reducer twoSnapshot evicted3).1 = metadata twoAppends
  ∧ options (restore 0 reducer twoSnapshot evicted3).1 = options evicted3.
Proof.
  assert ((snapshot 0 reducer 2000 twoAppends).2 = Ok twoSnapshot) as H1
    by reflexivity.
  split; [exact H1|].
  exact (X12_snapshot_restore_data 0 reducer 2000 twoAppends twoSnapshot evicted3 H1).
Defined.

Lemma X14_witness :
  (total reducer
   ∧ checkpointsOn twoAppends = true
   ∧ truthyN (checkpointInterval (options twoAppends)) = true
   ∧ snap_events twoSnapshot = Some (events twoAppends))
  ∧ (is_Some (checkpoints (restore 0 reducer twoSnapshot twoAppends).1 !! 0)
     ↔ 0 = -1
       ∨ (0 ≤ 0 ≤ snap_index twoSnapshot
          ∧ (0 + 1) `mod` numOf (checkpointInterval (options twoAppends)) = 0)).
Proof.
  assert (checkpointsOn twoAppends = true) as H1 by reflexivity.
  assert (truthyN (checkpointInterval (options twoAppends)) = true) as H2
    by reflexivity.
  assert (snap_events twoSnapshot = Some (events twoAppends)) as H3 by reflexivity.
  split; [exact (conj reducer_total (conj H1 (conj H2 H3)))|].
  exact (X14_restore_checkpoint_positions 0 reducer twoSnapshot _ twoAppends 0
           reducer_total H1 H2 H3).
Defined.

Lemma X15_witness :
  (reachable 0 reducer true everyOptions twoEvery
   ∧ overflows (truncated twoEvery) = false
   ∧ (append 0 reducer 1 1001 1001 twoEvery).2
     = Ok (makeEvent 1 1001 1001 2%N)
   ∧ intervalReached (append 0 reducer 1 1001 1001 twoEvery).1 = true)
  ∧ (intervalReached (append 0 reducer 1 1001 1001 twoEvery).1 = true →
     ∃ st, checkpoints (append 0 reducer 1 1001 1001 twoEvery).1
             !! index (append 0 reducer 1 1001 1001 twoEvery).1 = Some st
           ∧ (project 0 reducer (append 0 reducer 1 1001 1001 twoEvery).1).2
             = Ok st)
  ∧ (intervalReached (append 0 reducer 1 1001 1001 twoEvery).1 = false →
     checkpoints (append 0 reducer 1 1001 1001 twoEvery).1
       !! index (append 0 reducer 1 1001 1001 twoEvery).1 = None).
Proof.
  assert (reachable 0 reducer true everyOptions twoEvery) as Hr
    by reach_by_steps.
  assert (overflows (truncated twoEvery) = false) as H1 by reflexivity.
  assert ((append 0 reducer 1 1001 1001 twoEvery).2
          = Ok (makeEvent 1 1001 1001 2%N)) as H2 by reflexivity.
  assert (intervalReached (append 0 reducer 1 1001 1001 twoEvery).1 = true)
    as H3 by reflexivity.
  split; [exact (conj Hr (conj H1 (conj H2 H3)))|].
  exact (X15_append_checkpoint_policy 0 reducer true everyOptions twoEvery
           1 1001 1001 _ Hr H1 H2).
Defined.

Lemma X16_witness :
  (reachable 0 reducer true defaults twoAppends
   ∧ (checkpointsOn twoAppends = true ∨ overflows (truncated twoAppends) = false)
   ∧ (project 0 reducer twoAppends).2 = Ok 2
   ∧ reducer 2 (makeEvent 1 1001 1001 (idCounter twoAppends)) = Some 3)
  ∧ (undo 0 reducer (append 0 reducer 1 1001 1001 twoAppends).1).2 = Ok true
  ∧ (project 0 reducer
       (undo 0 reducer (append 0 reducer 1 1001 1001 twoAppends).1).1).2 = Ok 2.
Proof.
  assert (checkpointsOn twoAppends = true ∨ overflows (truncated twoAppends) = false)
    as H1 by (left; reflexivity).
  assert ((project 0 reducer twoAppends).2 = Ok 2) as H2 by reflexivity.
  assert (reducer 2 (makeEvent 1 1001 1001 (idCounter twoAppends)) = Some 3)
    as H3 by reflexivity.
  split; [exact (conj (twoAppends_reachable true) (conj H1 (conj H2 H3)))|].
  exact (X16_undo_reverses_append 0 reducer defaults twoAppends 1 1001 1001
           2 3 (twoAppends_reachable true) H1 H2 H3).
Defined.

Lemma X17_witness :
  (indexInRange twoAppends ∧ 0 ≤ 1 ∧ 0 ≤ 2)
  ∧ index (rewind 0 reducer 1 twoAppends).1 = Z.max (-1) (index twoAppends - 1)
  ∧ (rewind 0 reducer 2 (rewind 0 reducer 1 twoAppends).1).1
    = (rewind 0 reducer (1 + 2) twoAppends).1
  ∧ (rewind 0 reducer 1 twoAppends).1 = (undo 0 reducer twoAppends).1.
Proof.
  assert (0 ≤ 1) as H1 by (vm_compute; discriminate).
  assert (0 ≤ 2) as H2 by (vm_compute; discriminate).
  split; [exact (conj twoAppends_indexInRange (conj H1 H2))|].
  exact (X17_rewind_composes 0 reducer twoAppends 1 2 twoAppends_indexInRange H1 H2).
Defined.

Lemma X18_witness :
  reachable 0 reducer false (storeOptions zeroConfig) initTwo
  ∧ truthyN (maxEvents (options initTwo)) = true
  ∧ (checkpointsOn initTwo = true
     ↔ cfg_enableCheckpoints zeroConfig ≠ Some false)
  ∧ (checkpointsOn initTwo = true → checkpoints initTwo !! (-1) = Some 0).
Proof.
  assert (reachable 0 reducer false (storeOptions zeroConfig) initTwo) as Hr
    by reach_by_steps.
  split; [exact Hr|].
  exact (X18_init_store_options 0 reducer zeroConfig _ Hr).
Defined.

Lemma twoAppends_after_zero : ∀ e, e ∈ events twoAppends → 0 ≤ ev_timestamp e.
Proof.
  vm_compute events. intros e He.
  apply elem_of_cons in He as [->|He]; [vm_compute; discriminate|].
  apply list_elem_of_singleton in He as ->. vm_compute; discriminate.
Defined.

Lemma X20_witness :
  (nondecreasing (events twoAppends)
   ∧ ∀ e, e ∈ events twoAppends → 0 ≤ ev_timestamp e)
  ∧ getActiveEvents (navigateToTime 0 reducer 1000 twoAppends).1
    = getEventsInRange 0 1000 twoAppends.
Proof.
  split; [exact (conj twoAppends_nondecreasing twoAppends_after_zero)|].
  exact (X20_navigateToTime_selects_the_time_range 0 reducer twoAppends 0 1000
           twoAppends_nondecreasing twoAppends_after_zero).
Defined.

Lemma X21_witness :
  indexInRange branchPoint
  ∧ getActiveEvents branchPoint
    = take (Z.to_nat (index branchPoint + 1)) (getEvents branchPoint)
  ∧ Z.of_nat (length (getActiveEvents branchPoint)) = index branchPoint + 1
  ∧ (canRedo branchPoint = false ↔ getActiveEvents branchPoint = getEvents branchPoint).
Proof.
  assert (indexInRange branchPoint) as Hi by (vm_compute; split; discriminate).
  split; [exact Hi|].
  exact (X21_active_events_are_a_prefix branchPoint Hi).
Defined.

Lemma X22_witness :
  grown 0 reducer defaults twoAppends
  ∧ NoDup (ev_id <$> getEvents twoAppends).
Proof.
  assert (grown 0 reducer defaults twoAppends) as Hg.
  { cbv [twoAppends appendOnes Nat.iter nat_rect].
    repeat (apply grown_step; [|reflexivity]). apply grown_new. }
  split; [exact Hg|].
  exact (X22_event_ids_are_unique 0 reducer defaults twoAppends Hg).
Defined.

Lemma X23_witness :
  (reachable 0 reducer false defaults twoAppends
   ∧ 0 ≤ 0
   ∧ checkpoints twoAppends !! 0 = Some 1)
  ∧ reduce reducer (slice 0 (0 + 1) (events twoAppends)) 0 = Some 1.
Proof.
  assert (0 ≤ 0) as H1 by (vm_compute; discriminate).
  assert (checkpoints twoAppends !! 0 = Some 1) as H2 by reflexivity.
  split; [exact (conj (twoAppends_reachable false) (conj H1 H2))|].
  exact (X23_checkpoints_cache_prefix_folds 0 reducer defaults twoAppends 0 1
           (twoAppends_reachable false) H1 H2).
Defined.
